(** * Branch classification and deletion engine of [cli.js]

    A shallow embedding of [src/cli.js]: the helper functions
    [getBranchTipMap], [getDirectlyMergedCommitHashes],
    [getBranchCommitTimestamp], [selectBranchesToDelete], the stale-days
    parsing, and the main asynchronous procedure (local scope, remote scope,
    final prune, summary).

    Read-only git queries are pure functions of a [Repo] value; the
    mutating commands ([git fetch --prune], [git branch -d/-D],
    [git push --delete]), the clock ([Date.now]) and the interactive prompt
    are effects of a small state-and-exception monad [M].  A JS [Map] and a
    JS [Set] keep insertion order, so both are association lists / lists
    here, updated the way [Map.prototype.set] and [Set.prototype.add] do. *)

From Stdlib Require Import String Ascii List ZArith Bool Lia.
Import ListNotations.
Open Scope Z_scope.

Definition hash := string.

(** ** JS containers *)

(** [Map.prototype.set]: an existing key keeps its position. *)
Fixpoint map_set {V : Type} (k : string) (v : V) (m : list (string * V))
  : list (string * V) :=
  match m with
  | [] => [(k, v)]
  | (k', v') :: r =>
      if String.eqb k k' then (k, v) :: r else (k', v') :: map_set k v r
  end.

Fixpoint map_get {V : Type} (k : string) (m : list (string * V)) : option V :=
  match m with
  | [] => None
  | (k', v) :: r => if String.eqb k k' then Some v else map_get k r
  end.

Definition set_has (x : string) (s : list string) : bool :=
  existsb (String.eqb x) s.

(** [Set.prototype.add]: appends when absent. *)
Definition set_add (x : string) (s : list string) : list string :=
  if set_has x s then s else s ++ [x].

(** [String.prototype.includes('->')]. *)
Definition includes_arrow (s : string) : bool :=
  match String.index 0 "->" s with Some _ => true | None => false end.

(** [s.substring(n)]. *)
Definition substring_from (n : nat) (s : string) : string :=
  String.substring n (String.length s - n) s.

Definition remoteName : string := "origin".

(** ** The repository the git commands act on *)

Record Repo := mkRepo {
  heads : list (string * hash);         (* refs/heads/<name> *)
  tracking : list (string * hash);      (* refs/remotes/origin/<name> *)
  other_remotes : list (string * hash); (* refs/remotes/<remote>/<name> of the
                                           other remotes, as <remote>/<name> *)
  origin_head : option string;          (* refs/remotes/origin/HEAD, a symbolic
                                           ref to origin/<name> *)
  origin_heads : list (string * hash);  (* branches on the remote itself *)
  parents : hash -> list hash;          (* %P of a commit *)
  ctime : hash -> Z;                    (* %ct of a commit, Unix seconds *)
  head : option string;                 (* symbolic-ref HEAD; None: detached *)
  depth : nat;                          (* bound on first-parent chains *)
  origin_reachable : bool;              (* fetch and push can reach origin *)
  not_fully_merged : string -> bool;    (* git branch -d refuses it *)
  push_rejected : string -> bool        (* git push --delete rejected *)
}.

Definition key_in {V : Type} (k : string) (m : list (string * V)) : bool :=
  existsb (fun kv => String.eqb k (fst kv)) m.

Definition remove_key {V : Type} (k : string) (m : list (string * V))
  : list (string * V) :=
  filter (fun kv => negb (String.eqb k (fst kv))) m.

(** Revision lookup of git ([refs/heads/<n>] first, then
    [refs/remotes/<n>]). *)
Definition resolve (r : Repo) (n : string) : option hash :=
  match map_get n (heads r) with
  | Some h => Some h
  | None =>
      if String.prefix (remoteName ++ "/") n
      then map_get (substring_from (String.length remoteName + 1) n) (tracking r)
      else None
  end.

(** [git log <c> --first-parent]: the mainline from [c]. *)
Fixpoint first_parent_chain (ps : hash -> list hash) (fuel : nat) (c : hash)
  : list hash :=
  match fuel with
  | O => []
  | S n => c :: match ps c with
                | [] => []
                | p :: _ => first_parent_chain ps n p
                end
  end.

(** Output of [git log <ref> --merges --first-parent --pretty=format:"%P"],
    each line already split on spaces; [None] when the command fails. *)
Definition git_log_merges (r : Repo) (ref : string) : option (list (list hash)) :=
  match resolve r ref with
  | None => None
  | Some tip =>
      Some (map (parents r)
              (filter (fun c => Nat.ltb 1 (length (parents r c)))
                 (first_parent_chain (parents r) (depth r) tip)))
  end.

(** Insertion into a listing sorted by refname (byte order). *)
Fixpoint insert_ref (x : string * string * hash) (l : list (string * string * hash))
  : list (string * string * hash) :=
  match l with
  | [] => [x]
  | y :: l' =>
      if String.ltb (fst (fst y)) (fst (fst x)) then y :: insert_ref x l' else x :: l
  end.

(** The refs under [refs/remotes/] as [git branch -r] lists them, sorted by
    refname: (refname below [refs/remotes/], the name [%(refname:short)]
    prints, [%(objectname)]).  Besides origin's branches this lists the
    other remotes' branches and the symbolic ref [origin/HEAD], with the
    object of its target and printed [origin], its shortest unambiguous
    name; a dangling symbolic ref is not listed.  As for the local listing,
    no short name is ambiguous (no local branch is named like a
    remote-tracking ref), so the other names print as their refname below
    [refs/remotes/]. *)
Definition remote_ref_lines (r : Repo) : list (string * string * hash) :=
  fold_right insert_ref []
    (map (fun kv => let n := (remoteName ++ "/" ++ fst kv)%string in (n, n, snd kv))
         (tracking r)
     ++ map (fun kv => (fst kv, fst kv, snd kv)) (other_remotes r)
     ++ match origin_head r with
        | Some t =>
            match map_get t (tracking r) with
            | Some h => [((remoteName ++ "/HEAD")%string, remoteName, h)]
            | None => []
            end
        | None => []
        end).

(** Output lines of [git branch [-r] --format='%(refname:short) %(objectname)'],
    each split on spaces. *)
Definition git_branch_tips (r : Repo) (remote : bool) : list (list string) :=
  if remote
  then map (fun l => [snd (fst l); snd l]) (remote_ref_lines r)
  else map (fun kv => [fst kv; snd kv]) (heads r).

(** [git --no-pager log -1 --format=%ct <name>], parsed; [None]: failure. *)
Definition git_log_ct (r : Repo) (n : string) : option Z :=
  option_map (ctime r) (resolve r n).

(** ** Helper functions of cli.js *)

(** [getBranchCommitTimestamp]: 0 signals failure. *)
Definition getBranchCommitTimestamp (r : Repo) (branchName : string) : Z :=
  match git_log_ct r branchName with Some t => t | None => 0 end.

(** The [forEach] body of [getBranchTipMap]. *)
Definition tip_line (remote : bool) (m : list (string * hash)) (parts : list string)
  : list (string * hash) :=
  match parts with
  | [name; commitHash] =>
      let branchName :=
        if remote && String.prefix (remoteName ++ "/") name
        then substring_from (String.length remoteName + 1) name
        else name in
      if negb (String.eqb branchName "") && negb (includes_arrow branchName)
      then map_set branchName commitHash m
      else m
  | _ => m
  end.

Definition getBranchTipMap (r : Repo) (remote : bool) : list (string * hash) :=
  fold_left (tip_line remote) (git_branch_tips r remote) [].

(** The [forEach] body of [getDirectlyMergedCommitHashes]. *)
Definition merged_line (s : list hash) (parents : list hash) : list hash :=
  match parents with
  | _ :: p2 :: _ => set_add p2 s
  | _ => s
  end.

Definition getDirectlyMergedCommitHashes (r : Repo) (base : string) (remote : bool)
  : list hash :=
  let fullBase := if remote then (remoteName ++ "/" ++ base)%string else base in
  match git_log_merges r fullBase with
  | None => []
  | Some lines => fold_left merged_line lines []
  end.

(** ** Step 2a: local branches merged into the local base *)

(** [git show-ref --verify --quiet refs/heads/<base>]. *)
Definition show_ref_head (r : Repo) (b : string) : bool := key_in b (heads r).

(** [git show-ref --verify --quiet refs/remotes/origin/<base>]. *)
Definition show_ref_remote (r : Repo) (b : string) : bool := key_in b (tracking r).

(** [runCommand('git symbolic-ref --short HEAD', true) || ''] *)
Definition currentBranchOf (r : Repo) : string :=
  match head r with Some b => b | None => ""%string end.

Definition merged_filter (hs : list hash) (excluded : string -> bool)
  (acc : list string) (kv : string * hash) : list string :=
  if set_has (snd kv) hs && negb (excluded (fst kv)) then set_add (fst kv) acc else acc.

(** [localMergedToDelete]: the [try] block of step 2a; when the base
    branch is missing the [show-ref] throws and the set stays empty. *)
Definition classify_local_merged (r : Repo) (baseBranch : string) : list string :=
  if show_ref_head r baseBranch then
    let currentBranch := currentBranchOf r in
    let localBranchTips := getBranchTipMap r false in
    let directlyMergedHashes := getDirectlyMergedCommitHashes r baseBranch false in
    fold_left
      (merged_filter directlyMergedHashes
         (fun n => String.eqb n baseBranch || String.eqb n currentBranch))
      localBranchTips []
  else [].

(** [remoteMergedToDelete]: step 3a. *)
Definition classify_remote_merged (r : Repo) (baseBranch : string) : list string :=
  let remoteBranchTips := getBranchTipMap r true in
  if show_ref_remote r baseBranch then
    let directlyMergedHashesRemote := getDirectlyMergedCommitHashes r baseBranch true in
    fold_left
      (merged_filter directlyMergedHashesRemote (fun n => String.eqb n baseBranch))
      remoteBranchTips []
  else [].

(** ** Steps 2b and 3b: stale branches *)

(** [Date.now()] is in milliseconds and the source compares a whole number
    of seconds [commitTimestamp] with
    [staleThreshold = Date.now() / 1000 - days * 24 * 60 * 60].
    With [cut := now_ms - days * 86400000] the comparison
    [commitTimestamp <= staleThreshold] is [1000 * commitTimestamp <= cut]:
    [now_ms / 1000] is either an integer or at least [0.001] away from one,
    so the rounding of the double division never moves it across an
    integer. *)
Definition staleCut (now_ms days : Z) : Z := now_ms - days * 86400000.

Definition isStale (commitTimestamp cut : Z) : bool :=
  commitTimestamp * 1000 <=? cut.

(** [git branch --format="%(refname:short)"], trimmed, blanks dropped. *)
Definition git_branch_names (r : Repo) : list string := map fst (heads r).

(** The [for] loop of step 2b, threading [localStaleToDelete] and
    [handledLocalBranches]; console output is not modelled. *)
Fixpoint local_stale_loop (r : Repo) (baseBranch : string) (merged : list string)
  (cut : Z) (branches : list string) (stale handled : list string)
  : list string * list string :=
  match branches with
  | [] => (stale, handled)
  | branch :: rest =>
      if String.eqb branch baseBranch || set_has branch handled then
        local_stale_loop r baseBranch merged cut rest stale handled
      else
        let commitTimestamp := getBranchCommitTimestamp r branch in
        if 0 <? commitTimestamp then
          if isStale commitTimestamp cut && negb (set_has branch merged) then
            local_stale_loop r baseBranch merged cut rest
              (set_add branch stale) (set_add branch handled)
          else local_stale_loop r baseBranch merged cut rest stale handled
        else local_stale_loop r baseBranch merged cut rest stale handled
  end.

(** [localStaleToDelete] after step 2b; [handledLocalBranches] is still
    empty when the loop starts. *)
Definition classify_local_stale (r : Repo) (baseBranch : string)
  (merged : list string) (cut : Z) : list string :=
  fst (local_stale_loop r baseBranch merged cut (git_branch_names r) [] []).

(** [git branch -r], trimmed, blanks dropped, as far as the filter of step
    3b keeps it: origin's branches (in the order of [tracking]).  The other
    remotes' lines fail [startsWith('origin/')].  The line
    [origin/HEAD -> origin/<b>] passes the filter but never becomes a
    candidate: in [git --no-pager log -1 --format=%ct origin/HEAD -> origin/<b>]
    the shell redirects the output away, so the timestamp read is [NaN] (or
    [0] when the redirection fails), which is not positive; nor is its
    short name added to [handledRemoteBranches].  It is left out here. *)
Definition git_branch_r (r : Repo) : list string :=
  map (fun kv => (remoteName ++ "/" ++ fst kv)%string) (tracking r).

Definition remote_branch_filter (baseBranch branch : string) : bool :=
  negb (String.eqb branch "") && String.prefix (remoteName ++ "/") branch
  && negb (String.eqb branch ("refs/remotes/" ++ remoteName ++ "/" ++ baseBranch)).

(** The [for] loop of step 3b. *)
Fixpoint remote_stale_loop (r : Repo) (baseBranch : string) (merged : list string)
  (cut : Z) (branches : list string) (stale handled : list string)
  : list string * list string :=
  match branches with
  | [] => (stale, handled)
  | fullBranchName :: rest =>
      let shortBranchName := substring_from (String.length remoteName + 1) fullBranchName in
      if String.eqb shortBranchName baseBranch || set_has shortBranchName handled then
        remote_stale_loop r baseBranch merged cut rest stale handled
      else
        let commitTimestamp := getBranchCommitTimestamp r fullBranchName in
        if 0 <? commitTimestamp then
          if isStale commitTimestamp cut && negb (set_has shortBranchName merged) then
            remote_stale_loop r baseBranch merged cut rest
              (set_add shortBranchName stale) (set_add shortBranchName handled)
          else remote_stale_loop r baseBranch merged cut rest stale handled
        else remote_stale_loop r baseBranch merged cut rest stale handled
  end.

Definition classify_remote_stale (r : Repo) (baseBranch : string)
  (merged : list string) (cut : Z) : list string :=
  fst (remote_stale_loop r baseBranch merged cut
         (filter (remote_branch_filter baseBranch) (git_branch_r r)) [] []).

(** The common shape of the two stale loops: [key] maps a listed name to
    the name stored in the sets ([shortBranchName] for the remote loop). *)
Fixpoint stale_scan (key : string -> string) (tsOf : string -> Z) (baseBranch : string)
  (merged : list string) (cut : Z) (xs : list string) (stale handled : list string)
  : list string * list string :=
  match xs with
  | [] => (stale, handled)
  | x :: rest =>
      let k := key x in
      if String.eqb k baseBranch || set_has k handled then
        stale_scan key tsOf baseBranch merged cut rest stale handled
      else
        let ts := tsOf x in
        if 0 <? ts then
          if isStale ts cut && negb (set_has k merged) then
            stale_scan key tsOf baseBranch merged cut rest (set_add k stale) (set_add k handled)
          else stale_scan key tsOf baseBranch merged cut rest stale handled
        else stale_scan key tsOf baseBranch merged cut rest stale handled
  end.

(** ** Parsing of [--stale] *)

(** The value is the UTF-8 encoding of [String(argv.stale)].  [parseInt]
    skips the white space of JS (StrWhiteSpaceChar): TAB, LF, VT, FF, CR and
    space (one byte), U+00A0 (two bytes), and U+1680, U+2000 to U+200A,
    U+2028, U+2029, U+202F, U+205F, U+3000 and U+FEFF (three bytes). *)
Definition is_js_space (c : ascii) : bool :=
  match c with
  | " "%char | "009"%char | "010"%char | "011"%char | "012"%char | "013"%char => true
  | _ => false
  end.

Definition is_js_space2 (c1 c2 : ascii) : bool :=
  (N_of_ascii c1 =? 194)%N && (N_of_ascii c2 =? 160)%N.

Definition is_js_space3 (c1 c2 c3 : ascii) : bool :=
  let b1 := N_of_ascii c1 in
  let b2 := N_of_ascii c2 in
  let b3 := N_of_ascii c3 in
  (((b1 =? 225) && (b2 =? 154) && (b3 =? 128))
  || ((b1 =? 226) && (b2 =? 128)
      && ((128 <=? b3) && (b3 <=? 138) || (b3 =? 168) || (b3 =? 169) || (b3 =? 175)))
  || ((b1 =? 226) && (b2 =? 129) && (b3 =? 159))
  || ((b1 =? 227) && (b2 =? 128) && (b3 =? 128))
  || ((b1 =? 239) && (b2 =? 187) && (b3 =? 191)))%N.

Fixpoint skip_spaces (s : string) : string :=
  match s with
  | String c r =>
      if is_js_space c then skip_spaces r
      else match r with
           | String c2 r2 =>
               if is_js_space2 c c2 then skip_spaces r2
               else match r2 with
                    | String c3 r3 => if is_js_space3 c c2 c3 then skip_spaces r3 else s
                    | EmptyString => s
                    end
           | EmptyString => s
           end
  | EmptyString => EmptyString
  end.

Definition digit_of (c : ascii) : option Z :=
  let n := Z.of_nat (nat_of_ascii c) - 48 in
  if (0 <=? n) && (n <=? 9) then Some n else None.

(** Longest prefix of decimal digits; [None] when there is none. *)
Fixpoint read_digits (s : string) (acc : option Z) : option Z :=
  match s with
  | String c r =>
      match digit_of c with
      | Some d => read_digits r (Some (match acc with Some a => a | None => 0 end * 10 + d))
      | None => acc
      end
  | EmptyString => acc
  end.

(** The double nearest to [z] (ties to even): integers below [2^53] in
    magnitude are their own double. *)
Definition round_double (z : Z) : Z :=
  let n := Z.abs z in
  if n <? 2 ^ 53 then z
  else
    let e := Z.log2 n - 52 in
    let q := Z.shiftr n e in
    let rem := n - Z.shiftl q e in
    let half := Z.shiftl 1 (e - 1) in
    let q' := if (half <? rem) || ((rem =? half) && Z.odd q) then q + 1 else q in
    Z.sgn z * Z.shiftl q' e.

(** [parseInt(String(x), 10)]; [None] stands for [NaN].  The number is the
    double nearest to the digits read.  A magnitude of [2^1024] or more is
    [Infinity] in JS and kept as that integer here: with either no branch
    is stale (positive days), or every branch whose timestamp is below
    [2^1040] is (negative days). *)
Definition parseInt10 (s : string) : option Z :=
  option_map round_double
    match skip_spaces s with
    | String "-"%char r => option_map Z.opp (read_digits r None)
    | String "+"%char r => read_digits r None
    | s' => read_digits s' None
    end.

(** [argv.stale]: [None] is [undefined], [Some s] is the value as
    [String(argv.stale)] (a bare [-s] is [true]).  Returns whether the
    warning is printed and [actualStaleDays]. *)
Definition parseStaleDays (stale : option string) : bool * Z :=
  match stale with
  | None => (false, 120)
  | Some s =>
      match parseInt10 s with
      | None => (true, 120)
      | Some n => (false, n)
      end
  end.

(** ** Mutating git commands *)

Inductive Cmd :=
| FetchPrune                    (* git fetch origin --prune *)
| BranchDelete (b : string)     (* git branch -d b *)
| BranchForceDelete (b : string) (* git branch -D b *)
| PushDelete (b : string).      (* git push origin --delete b *)

Definition with_heads (r : Repo) (hs : list (string * hash)) : Repo :=
  mkRepo hs (tracking r) (other_remotes r) (origin_head r) (origin_heads r)
    (parents r) (ctime r) (head r) (depth r)
    (origin_reachable r) (not_fully_merged r) (push_rejected r).

Definition with_remote (r : Repo) (tr og : list (string * hash)) : Repo :=
  mkRepo (heads r) tr (other_remotes r) (origin_head r) og
    (parents r) (ctime r) (head r) (depth r)
    (origin_reachable r) (not_fully_merged r) (push_rejected r).

Definition is_current (r : Repo) (b : string) : bool :=
  match head r with Some h => String.eqb h b | None => false end.

(** What git does with each command; [None]: it exits non-zero. *)
Definition exec_cmd (c : Cmd) (r : Repo) : option Repo :=
  match c with
  | FetchPrune =>
      if origin_reachable r then Some (with_remote r (origin_heads r) (origin_heads r))
      else None
  | BranchDelete b =>
      if key_in b (heads r) && negb (is_current r b) && negb (not_fully_merged r b)
      then Some (with_heads r (remove_key b (heads r))) else None
  | BranchForceDelete b =>
      if key_in b (heads r) && negb (is_current r b)
      then Some (with_heads r (remove_key b (heads r))) else None
  | PushDelete b =>
      if origin_reachable r && key_in b (origin_heads r) && negb (push_rejected r b)
      then Some (with_remote r (remove_key b (tracking r)) (remove_key b (origin_heads r)))
      else None
  end.

(** ** The effect monad *)

(** Console lines that the properties below talk about. *)
Inductive Msg :=
| WarnInvalidStale (s : string)
| DryRunComplete
| LocalSummary (deleted failed : nat)
| RemoteSummary (deleted failed : nat)
| RemoteDisabled
| Fatal.

(** The outside world: the clock and the operator's answers. *)
Record Env := mkEnv {
  clock : nat -> Z;                         (* n-th reading of Date.now() *)
  select : nat -> list string -> list string (* answer to the n-th prompt *)
}.

Record State := mkState {
  repo : Repo;
  ticks : nat;           (* Date.now() calls so far *)
  prompts : nat;         (* prompts shown so far *)
  journal : list Cmd;    (* mutating commands attempted, in order *)
  out : list Msg
}.

(** [None]: an exception is propagating. *)
Definition M (A : Type) : Type := Env -> State -> option A * State.

Definition ret {A : Type} (a : A) : M A := fun _ s => (Some a, s).

Definition bind {A B : Type} (m : M A) (k : A -> M B) : M B :=
  fun e s => match m e s with
             | (Some a, s') => k a e s'
             | (None, s') => (None, s')
             end.

Notation "x <- m ;; k" := (bind m (fun x => k))
  (at level 61, m at next level, right associativity).
Notation "' p <- m ;; k" := (bind m (fun x => match x with p => k end))
  (at level 61, p pattern, m at next level, right associativity).
Notation "m ;;; k" := (bind m (fun _ => k))
  (at level 61, right associativity).

(** [try { m } catch { h }]: effects of [m] before the throw persist. *)
Definition catch {A : Type} (m : M A) (h : M A) : M A :=
  fun e s => match m e s with
             | (None, s') => h e s'
             | res => res
             end.

Definition get_repo : M Repo := fun _ s => (Some (repo s), s).

Definition emit (m : Msg) : M unit :=
  fun _ s => (Some tt, mkState (repo s) (ticks s) (prompts s) (journal s) (out s ++ [m])).

Definition date_now : M Z :=
  fun e s => (Some (clock e (ticks s)),
              mkState (repo s) (S (ticks s)) (prompts s) (journal s) (out s)).

(** [runCommand(c)] for a mutating command: throws when git fails. *)
Definition runCommand (c : Cmd) : M unit :=
  fun _ s =>
    let s1 := mkState (repo s) (ticks s) (prompts s) (journal s ++ [c]) (out s) in
    match exec_cmd c (repo s) with
    | Some r' => (Some tt, mkState r' (ticks s1) (prompts s1) (journal s1) (out s1))
    | None => (None, s1)
    end.

(** [selectBranchesToDelete]: no prompt for an empty set. *)
Definition selectBranchesToDelete (branches : list string) : M (list string) :=
  fun e s =>
    match branches with
    | [] => (Some [], s)
    | _ => (Some (select e (prompts s) branches),
            mkState (repo s) (ticks s) (S (prompts s)) (journal s) (out s))
    end.

(** The deletion [for] loops: each deletion in its own [try]. *)
Fixpoint delete_batch (deleteFn : string -> Cmd) (selected : list string)
  (deletedCount failedCount : nat) : M (nat * nat) :=
  match selected with
  | [] => ret (deletedCount, failedCount)
  | branch :: rest =>
      ok <- catch (runCommand (deleteFn branch) ;;; ret true) (ret false) ;;
      if ok then delete_batch deleteFn rest (S deletedCount) failedCount
      else delete_batch deleteFn rest deletedCount (S failedCount)
  end.

(** Steps 2c and 3c for one category: in a dry run nothing is selected
    or attempted (the listing is console output). *)
Definition deletion_step (dryRun : bool) (candidates : list string)
  (deleteFn : string -> Cmd) : M (nat * nat) :=
  if dryRun then ret (0, 0)%nat
  else
    selected <- selectBranchesToDelete candidates ;;
    match selected with
    | [] => ret (0, 0)%nat
    | _ => delete_batch deleteFn selected 0 0
    end.

(** ** The main procedure *)

Record Args := mkArgs {
  a_base : string;           (* --base, default main *)
  a_remote : bool;           (* --remote *)
  a_stale : option string;   (* --stale; None: undefined *)
  a_dry_run : bool           (* --dry-run *)
}.

(** What the run computed: the four candidate sets, the stale cut-offs
    used in each scope (in milliseconds), and the four counters. *)
Record Report := mkReport {
  localMergedToDelete : list string;
  localStaleToDelete : list string;
  remoteMergedToDelete : list string;
  remoteStaleToDelete : list string;
  localCut : option Z;
  remoteCut : option Z;
  totalLocalDeleted : nat;
  totalLocalFailed : nat;
  totalRemoteDeleted : nat;
  totalRemoteFailed : nat
}.

Definition stale_given (argv : Args) : bool :=
  match a_stale argv with Some _ => true | None => false end.

(** Steps 3 and 4, run when [--remote] is given. *)
Definition remote_steps (argv : Args) (actualStaleDays : Z)
  : M (list string * list string * option Z * nat * nat) :=
  let baseBranch := a_base argv in
  let dryRun := a_dry_run argv in
  r <- get_repo ;;
  let remoteMerged := classify_remote_merged r baseBranch in
  '(remoteStale, cut) <-
    (if stale_given argv && a_remote argv then
       now <- date_now ;;
       let staleThreshold := staleCut now actualStaleDays in
       r' <- get_repo ;;
       ret (classify_remote_stale r' baseBranch remoteMerged staleThreshold,
            Some staleThreshold)
     else ret ([], None)) ;;
  '(rmd, rmf) <- deletion_step dryRun remoteMerged PushDelete ;;
  '(rsd, rsf) <- deletion_step dryRun remoteStale PushDelete ;;
  let totalRemoteDeleted := (rmd + rsd)%nat in
  let totalRemoteFailed := (rmf + rsf)%nat in
  (if negb dryRun && (Nat.ltb 0 totalRemoteDeleted || Nat.ltb 0 totalRemoteFailed)
   then runCommand FetchPrune else ret tt) ;;;
  ret (remoteMerged, remoteStale, cut, totalRemoteDeleted, totalRemoteFailed).

(** The body of the [try] block of the async main function. *)
Definition main (argv : Args) (actualStaleDays : Z) : M Report :=
  let baseBranch := a_base argv in
  let dryRun := a_dry_run argv in
  runCommand FetchPrune ;;;
  r <- get_repo ;;
  let localMerged := classify_local_merged r baseBranch in
  '(localStale, lcut) <-
    (if stale_given argv then
       now <- date_now ;;
       let staleThreshold := staleCut now actualStaleDays in
       r' <- get_repo ;;
       ret (classify_local_stale r' baseBranch localMerged staleThreshold,
            Some staleThreshold)
     else ret ([], None)) ;;
  '(lmd, lmf) <- deletion_step dryRun localMerged BranchDelete ;;
  '(lsd, lsf) <- deletion_step dryRun localStale BranchForceDelete ;;
  let totalLocalDeleted := (lmd + lsd)%nat in
  let totalLocalFailed := (lmf + lsf)%nat in
  '(remoteMerged, remoteStale, rcut, totalRemoteDeleted, totalRemoteFailed) <-
    (if a_remote argv then remote_steps argv actualStaleDays
     else ret ([], [], None, 0%nat, 0%nat)) ;;
  (if dryRun then emit DryRunComplete else ret tt) ;;;
  emit (LocalSummary totalLocalDeleted totalLocalFailed) ;;;
  (if a_remote argv then emit (RemoteSummary totalRemoteDeleted totalRemoteFailed)
   else emit RemoteDisabled) ;;;
  ret (mkReport localMerged localStale remoteMerged remoteStale lcut rcut
         totalLocalDeleted totalLocalFailed totalRemoteDeleted totalRemoteFailed).

(** The whole script: stale-days parsing at top level, then [main] with
    its outer [catch] ([process.exit(1)], the [None] outcome). *)
Definition program (argv : Args) : M Report :=
  let '(warn, actualStaleDays) := parseStaleDays (a_stale argv) in
  (if warn then
     emit (WarnInvalidStale match a_stale argv with Some s => s | None => ""%string end)
   else ret tt) ;;;
  fun e s => match main argv actualStaleDays e s with
             | (None, s') => (None, mkState (repo s') (ticks s') (prompts s')
                                      (journal s') (out s' ++ [Fatal]))
             | res => res
             end.

(** ** Reachability in the commit graph *)

(** [reachable ps x y]: [y] is [x] or an ancestor of [x]. *)
Inductive reachable (ps : hash -> list hash) : hash -> hash -> Prop :=
| reach_refl c : reachable ps c c
| reach_parent c p d : In p (ps c) -> reachable ps p d -> reachable ps c d.

Open Scope string_scope.

(** ** A sample history

    [main] is at the merge commit [m1] of [feature/a] (tip [a1]);
    [feature/b] (tip [b1]) was never merged; [origin] still has
    [main] and [feature/a], and the local remote-tracking ref [gone] is
    stale.  Committer times: [a1] at 50, [b1] at 100, the rest at 10^7. *)
Definition sample_parents (c : hash) : list hash :=
  if String.eqb c "m1" then ["r"; "a1"]%string
  else if String.eqb c "a1" then ["r"]%string
  else if String.eqb c "b1" then ["r"]%string
  else [].

Definition sample_ctime (c : hash) : Z :=
  if String.eqb c "b1" then 100
  else if String.eqb c "a1" then 50
  else 10000000.

Definition sample_repo : Repo :=
  mkRepo [("main", "m1"); ("feature/a", "a1"); ("feature/b", "b1")]%string
         [("main", "m1"); ("feature/a", "a1"); ("gone", "b1")]%string [] None
         [("main", "m1"); ("feature/a", "a1")]%string
         sample_parents sample_ctime (Some "main"%string) 10 true
         (fun _ => false) (fun _ => false).

(** A run environment: the clock starts 30 days after the epoch and
    advances one second per reading; the operator keeps every branch
    checked. *)
Definition sample_env : Env :=
  mkEnv (fun n => 2592000000 + Z.of_nat n * 1000) (fun _ branches => branches).

Definition sample_state : State := mkState sample_repo 0 0 [] [].

(** The sample history with [feature/b] checked out. *)
Definition sample_repo_on_b : Repo :=
  mkRepo (heads sample_repo) (tracking sample_repo) [] None (origin_heads sample_repo)
         sample_parents sample_ctime (Some "feature/b") 10 true
         (fun _ => false) (fun _ => false).

(** An octopus merge [m1] of [a1] and [t] into [r], and a later
    two-parent merge [m2] of [t] again. *)
Definition octo_parents (c : hash) : list hash :=
  if String.eqb c "m2" then ["m1"; "t"]
  else if String.eqb c "m1" then ["r"; "a1"; "t"]
  else if String.eqb c "a1" || String.eqb c "t" then ["r"]
  else [].

Definition octo_heads (main_tip : hash) : list (string * hash) :=
  [("main", main_tip); ("feature/a", "a1"); ("feature/t", "t")].

(** [main] at the octopus merge. *)
Definition octo_repo : Repo :=
  mkRepo (octo_heads "m1") (octo_heads "m1") [] None (octo_heads "m1") octo_parents
         sample_ctime (Some "main") 10 true (fun _ => false) (fun _ => false).

(** [main] at [m2], whose second parent is [t]. *)
Definition octo_repo_remerged : Repo :=
  mkRepo (octo_heads "m2") (octo_heads "m2") [] None (octo_heads "m2") octo_parents
         sample_ctime (Some "main") 10 true (fun _ => false) (fun _ => false).

(** The sample history with a second remote [upstream] (branches [main]
    and [feature/a]) and the symbolic ref [origin/HEAD] to [origin/main]. *)
Definition fork_repo : Repo :=
  mkRepo (heads sample_repo) (tracking sample_repo)
         [("upstream/main", "m1"); ("upstream/feature/a", "a1")] (Some "main")
         (origin_heads sample_repo) sample_parents sample_ctime (Some "main") 10 true
         (fun _ => false) (fun _ => false).

(** ** Names used by the properties *)

(** The UTF-8 encoding of a code point below U+10000. *)
Definition utf8 (cp : Z) : string :=
  let byte z := ascii_of_N (Z.to_N z) in
  if Z.ltb cp 128 then String (byte cp) ""
  else if Z.ltb cp 2048 then String (byte (192 + cp / 64)) (String (byte (128 + cp mod 64)) "")
  else String (byte (224 + cp / 4096))
         (String (byte (128 + (cp / 64) mod 64)) (String (byte (128 + cp mod 64)) "")).

(** The code points of the white space of JS (WhiteSpace and
    LineTerminator of ECMA-262, Unicode category Zs included). *)
Definition js_white_space : list Z :=
  [9; 10; 11; 12; 13; 32; 160; 5760; 8192; 8193; 8194; 8195; 8196; 8197; 8198;
   8199; 8200; 8201; 8202; 8232; 8233; 8239; 8287; 12288; 65279].

Definition js_spaces (cps : list Z) : string :=
  fold_right (fun cp t => utf8 cp ++ t) "" cps.

Definition is_warning (m : Msg) : bool :=
  match m with WarnInvalidStale _ => true | _ => false end.

(** The name test of [getBranchTipMap]:
    [branchName && !branchName.includes('->')]. *)
Definition tip_name_ok (B : string) : bool :=
  negb (String.eqb B "") && negb (includes_arrow B).

(** The key [getBranchTipMap] stores for a line of the remote listing:
    the [origin/] prefix is stripped. *)
Definition remote_tip_key (n : string) : string :=
  if String.prefix (remoteName ++ "/") n
  then substring_from (String.length remoteName + 1) n else n.

(** The remote listing as (key, hash) entries. *)
Definition remote_tips (r : Repo) : list (string * hash) :=
  map (fun l => (remote_tip_key (snd (fst l)), snd l)) (remote_ref_lines r).

Definition tip_listing (r : Repo) (remote : bool) : list (string * hash) :=
  if remote then remote_tips r else heads r.

(** Where a remote entry [(B, h)] comes from: origin's branch [B], another
    remote's branch (its [<remote>/<name>], [origin/] stripped if it starts
    so), or the symbolic ref [origin/HEAD], printed [origin]. *)
Definition remote_tip_source (r : Repo) (B : string) (h : hash) : Prop :=
  In (B, h) (tracking r) \/
  (exists k, In (k, h) (other_remotes r) /\ remote_tip_key k = B) \/
  (B = remoteName /\ exists t, origin_head r = Some t /\ map_get t (tracking r) = Some h).

(** One [(name, hash)] listing entry added to the tip map. *)
Definition tip_step (m : list (string * hash)) (kv : string * hash) : list (string * hash) :=
  if tip_name_ok (fst kv) then map_set (fst kv) (snd kv) m else m.

(** Decimal digit strings, to state what [parseInt] reads. *)
Definition digit_char (d : nat) : ascii := ascii_of_nat (48 + d).

Fixpoint digits_string (ds : list nat) : string :=
  match ds with
  | [] => ""
  | d :: ds' => String (digit_char d) (digits_string ds')
  end.

Definition digits_value (ds : list nat) : Z :=
  fold_left (fun a d => a * 10 + Z.of_nat d) ds 0.

(** [s] does not start with a decimal digit. *)
Definition no_digit_first (s : string) : Prop :=
  match s with String c _ => digit_of c = None | EmptyString => True end.

(** A repository whose [HEAD] is detached. *)
Definition with_head_detached (r : Repo) : Repo :=
  mkRepo (heads r) (tracking r) (other_remotes r) (origin_head r) (origin_heads r)
    (parents r) (ctime r) None (depth r)
    (origin_reachable r) (not_fully_merged r) (push_rejected r).

(** A repository whose remote [origin] cannot be reached. *)
Definition with_origin_down (r : Repo) : Repo :=
  mkRepo (heads r) (tracking r) (other_remotes r) (origin_head r) (origin_heads r)
    (parents r) (ctime r) (head r) (depth r) false (not_fully_merged r) (push_rejected r).

(** * Properties *)

(** ** Containers *)

Lemma set_has_In x s : set_has x s = true <-> In x s.
Proof.
  unfold set_has; rewrite existsb_exists; split.
  - intros [y [Hy Heq]]; apply String.eqb_eq in Heq; subst; exact Hy.
  - intros H; exists x; split; [exact H | apply String.eqb_refl].
Qed.

Lemma set_has_false x s : set_has x s = false <-> ~ In x s.
Proof.
  rewrite <- set_has_In; destruct (set_has x s); split; congruence.
Qed.

Lemma set_add_In x y s : In x (set_add y s) <-> x = y \/ In x s.
Proof.
  unfold set_add; destruct (set_has y s) eqn:E.
  - apply set_has_In in E; split; [auto | intros [->|H]; auto].
  - rewrite in_app_iff; simpl; split.
    + intros [H|[H|[]]]; auto.
    + intros [H|H]; [subst|]; auto.
Qed.

Lemma map_get_set {V : Type} k' k (v : V) m :
  map_get k' (map_set k v m) = if String.eqb k' k then Some v else map_get k' m.
Proof.
  induction m as [|[k0 v0] m IH]; simpl.
  - destruct (String.eqb k' k); reflexivity.
  - destruct (String.eqb k k0) eqn:E; simpl.
    + apply String.eqb_eq in E; subst k0.
      destruct (String.eqb k' k); reflexivity.
    + rewrite IH. destruct (String.eqb k' k) eqn:E1; [|reflexivity].
      apply String.eqb_eq in E1; subst k'. rewrite E; reflexivity.
Qed.

Lemma map_get_In {V : Type} k (v : V) m : map_get k m = Some v -> In (k, v) m.
Proof.
  induction m as [|[k0 v0] m IH]; simpl; [discriminate|].
  destruct (String.eqb k k0) eqn:E.
  - intros [= <-]; apply String.eqb_eq in E; subst; auto.
  - intros H; right; auto.
Qed.

Lemma In_map_set {V : Type} x k (v : V) m :
  In x (map fst (map_set k v m)) -> x = k \/ In x (map fst m).
Proof.
  induction m as [|[k0 v0] m IH]; simpl.
  - intros [H|[]]; auto.
  - destruct (String.eqb k k0) eqn:E; simpl.
    + apply String.eqb_eq in E; subst; tauto.
    + intros [H|H]; [tauto|]. destruct (IH H); tauto.
Qed.

Lemma NoDup_map_set {V : Type} k (v : V) m :
  NoDup (map fst m) -> NoDup (map fst (map_set k v m)).
Proof.
  induction m as [|[k0 v0] m IH]; simpl; intros Hnd.
  - constructor; [intros []|constructor].
  - inversion Hnd as [|? ? Hnin Hnd']; subst.
    destruct (String.eqb k k0) eqn:E; simpl.
    + apply String.eqb_eq in E; subst; constructor; assumption.
    + constructor; [|auto].
      intros Hin; destruct (In_map_set _ _ _ _ Hin) as [->|H]; [|tauto].
      rewrite String.eqb_refl in E; discriminate.
Qed.

Lemma NoDup_map_get {V : Type} k (v : V) m :
  NoDup (map fst m) -> In (k, v) m -> map_get k m = Some v.
Proof.
  induction m as [|[k0 v0] m IH]; simpl; [tauto|].
  intros Hnd Hin; inversion Hnd as [|? ? Hnin Hnd']; subst.
  destruct (String.eqb k k0) eqn:E.
  - apply String.eqb_eq in E; subst k0.
    destruct Hin as [[= ->]|Hin]; [reflexivity|].
    exfalso; apply Hnin; apply (in_map fst _ _ Hin).
  - destruct Hin as [[= -> ->]|Hin].
    + rewrite String.eqb_refl in E; discriminate.
    + auto.
Qed.

(** ** [getBranchTipMap] *)

Definition tipmap_ok (m : list (string * hash)) : Prop :=
  NoDup (map fst m) /\ (forall k, In k (map fst m) -> k <> ""%string).

Lemma tip_line_ok remote m parts : tipmap_ok m -> tipmap_ok (tip_line remote m parts).
Proof.
  intros [Hnd Hne]; unfold tip_line.
  destruct parts as [|name [|commitHash [|? ?]]]; try (split; assumption).
  match goal with |- context [if ?c then _ else _] => destruct c eqn:E end;
    [|split; assumption].
  apply andb_true_iff in E as [E _]; apply negb_true_iff in E.
  split; [apply NoDup_map_set; exact Hnd|].
  intros k Hk; destruct (In_map_set _ _ _ _ Hk) as [->|Hk'].
  - intros Heq; rewrite Heq in E; discriminate.
  - auto.
Qed.

Lemma getBranchTipMap_ok r remote : tipmap_ok (getBranchTipMap r remote).
Proof.
  unfold getBranchTipMap.
  assert (H0 : tipmap_ok []) by (split; [constructor | intros k []]).
  revert H0; generalize (@nil (string * hash)).
  induction (git_branch_tips r remote) as [|l ls IH]; simpl; intros m Hm.
  - exact Hm.
  - apply IH, tip_line_ok, Hm.
Qed.

Lemma tipmap_get_nonempty r remote B t :
  map_get B (getBranchTipMap r remote) = Some t -> B <> ""%string.
Proof.
  intros H; destruct (getBranchTipMap_ok r remote) as [_ Hne].
  apply Hne, (in_map fst _ (B, t)), map_get_In, H.
Qed.

(** ** [getDirectlyMergedCommitHashes] *)

Lemma merged_line_fold lines s h :
  In h (fold_left merged_line lines s) <->
  In h s \/ exists l, In l lines /\ nth_error l 1 = Some h.
Proof.
  revert s; induction lines as [|l ls IH]; intros s; simpl.
  - split; [auto | intros [H|[l [[] _]]]; exact H].
  - rewrite IH; unfold merged_line.
    destruct l as [|a [|b rest]]; simpl.
    + split; [intros [H|[l [Hl Hn]]]; eauto|].
      intros [H|[l [[<-|Hl] Hn]]]; eauto; discriminate.
    + split; [intros [H|[l [Hl Hn]]]; eauto|].
      intros [H|[l [[<-|Hl] Hn]]]; eauto; discriminate.
    + rewrite set_add_In; split.
      * intros [[->|H]|[l [Hl Hn]]]; eauto.
      * intros [H|[l [[<-|Hl] Hn]]]; eauto.
        simpl in Hn; injection Hn as ->; auto.
Qed.

(** The merged set is exactly the second parents of the merge commits on
    the first-parent chain of the resolved base. *)
Lemma directly_merged_In r base remote h :
  In h (getDirectlyMergedCommitHashes r base remote) <->
  exists bt, resolve r (if remote then (remoteName ++ "/" ++ base)%string else base) = Some bt /\
    exists M, In M (first_parent_chain (parents r) (depth r) bt) /\
              nth_error (parents r M) 1 = Some h.
Proof.
  unfold getDirectlyMergedCommitHashes, git_log_merges.
  destruct (resolve r _) as [bt|].
  - rewrite merged_line_fold; split.
    + intros [[]|[l [Hl Hn]]].
      apply in_map_iff in Hl as [M [<- HM]]; apply filter_In in HM as [HM _].
      eauto.
    + intros [bt' [[= <-] [M [HM Hn]]]]; right; exists (parents r M); split; [|exact Hn].
      apply in_map, filter_In; split; [exact HM|].
      apply Nat.ltb_lt; destruct (parents r M) as [|? [|? ?]]; simpl in *;
        try discriminate; lia.
  - split; [intros []|intros [bt [Hbt _]]; discriminate].
Qed.

Lemma chain_reachable ps n x c :
  In c (first_parent_chain ps n x) -> reachable ps x c.
Proof.
  revert x; induction n as [|n IH]; intros x; simpl; [tauto|].
  intros [->|H]; [constructor|].
  destruct (ps x) as [|p rest] eqn:E; [destruct H|].
  apply reach_parent with p; [rewrite E; left; reflexivity | auto].
Qed.

Lemma reachable_snoc ps x c p :
  reachable ps x c -> In p (ps c) -> reachable ps x p.
Proof.
  induction 1 as [c|c q d Hq Hr IH]; intros Hp.
  - apply reach_parent with p; [exact Hp | constructor].
  - apply reach_parent with q; auto.
Qed.

(** A set of commits containing [x] and closed under [parents] contains
    everything reachable from [x]. *)
Lemma reachable_closed ps S x y :
  forallb (fun c => forallb (fun p => set_has p S) (ps c)) S = true ->
  set_has x S = true -> reachable ps x y -> set_has y S = true.
Proof.
  intros Hcl Hx Hr; induction Hr as [c|c p d Hp Hr IH]; [exact Hx|].
  apply IH; rewrite forallb_forall in Hcl.
  apply set_has_In in Hx; specialize (Hcl c Hx); rewrite forallb_forall in Hcl.
  apply Hcl, Hp.
Qed.

Lemma directly_merged_reachable r base remote h :
  In h (getDirectlyMergedCommitHashes r base remote) ->
  exists bt, resolve r (if remote then (remoteName ++ "/" ++ base)%string else base) = Some bt /\
    reachable (parents r) bt h.
Proof.
  rewrite directly_merged_In; intros [bt [Hbt [M [HM Hn]]]].
  exists bt; split; [exact Hbt|].
  apply reachable_snoc with M; [apply (chain_reachable _ _ _ _ HM)|].
  apply nth_error_In with 1%nat; exact Hn.
Qed.

(** ** Merged classification *)

Lemma merged_filter_fold hs ex m acc B :
  In B (fold_left (merged_filter hs ex) m acc) <->
  In B acc \/ exists h, In (B, h) m /\ In h hs /\ ex B = false.
Proof.
  revert acc; induction m as [|[k h] m IH]; intros acc; simpl.
  - split; [auto | intros [H|[h [[] _]]]; exact H].
  - rewrite IH; unfold merged_filter; simpl.
    destruct (set_has h hs && negb (ex k)) eqn:E.
    + apply andb_true_iff in E as [E1 E2]; apply set_has_In in E1;
        apply negb_true_iff in E2.
      rewrite set_add_In; split.
      * intros [[->|H]|[h' [Hin [Hh Hex]]]]; eauto 7.
      * intros [H|[h' [[[= -> ->]|Hin] [Hh Hex]]]]; eauto 7.
    + split.
      * intros [H|[h' [Hin [Hh Hex]]]]; eauto 7.
      * intros [H|[h' [[[= -> ->]|Hin] [Hh Hex]]]]; eauto 7.
        apply set_has_In in Hh; rewrite Hh, Hex in E; discriminate.
Qed.

Lemma tipmap_In_get r remote B h :
  In (B, h) (getBranchTipMap r remote) <-> map_get B (getBranchTipMap r remote) = Some h.
Proof.
  split; [|apply map_get_In].
  apply NoDup_map_get, (proj1 (getBranchTipMap_ok r remote)).
Qed.

Lemma classify_local_merged_In r base B :
  In B (classify_local_merged r base) <->
  show_ref_head r base = true /\
  exists h, map_get B (getBranchTipMap r false) = Some h /\
            In h (getDirectlyMergedCommitHashes r base false) /\
            B <> base /\ B <> currentBranchOf r.
Proof.
  unfold classify_local_merged; destruct (show_ref_head r base).
  - rewrite merged_filter_fold; split.
    + intros [[]|[h [Hin [Hh Hex]]]]; split; [reflexivity|].
      apply orb_false_iff in Hex as [E1 E2].
      exists h; rewrite <- tipmap_In_get; repeat split; auto;
        intros Heq; subst; [rewrite String.eqb_refl in E1 | rewrite String.eqb_refl in E2];
        discriminate.
    + intros [_ [h [Hg [Hh [Hb Hc]]]]]; right; exists h.
      rewrite tipmap_In_get; repeat split; auto.
      apply orb_false_iff; split; apply String.eqb_neq; assumption.
  - split; [intros []|intros [H _]; discriminate].
Qed.

Lemma classify_remote_merged_In r base B :
  In B (classify_remote_merged r base) <->
  show_ref_remote r base = true /\
  exists h, map_get B (getBranchTipMap r true) = Some h /\
            In h (getDirectlyMergedCommitHashes r base true) /\ B <> base.
Proof.
  unfold classify_remote_merged; destruct (show_ref_remote r base).
  - rewrite merged_filter_fold; split.
    + intros [[]|[h [Hin [Hh Hex]]]]; split; [reflexivity|].
      exists h; rewrite <- tipmap_In_get; repeat split; auto.
      intros Heq; subst; rewrite String.eqb_refl in Hex; discriminate.
    + intros [_ [h [Hg [Hh Hb]]]]; right; exists h.
      rewrite tipmap_In_get; repeat split; auto.
      apply String.eqb_neq; assumption.
  - split; [intros []|intros [H _]; discriminate].
Qed.

Lemma map_get_key_in {V : Type} k (v : V) m : map_get k m = Some v -> key_in k m = true.
Proof.
  intros H; apply map_get_In in H; unfold key_in; apply existsb_exists.
  exists (k, v); split; [exact H | apply String.eqb_refl].
Qed.

Lemma currentBranch_neq r B t :
  map_get B (getBranchTipMap r false) = Some t -> head r <> Some B ->
  B <> currentBranchOf r.
Proof.
  intros Hg Hh; unfold currentBranchOf; destruct (head r) as [c|].
  - intros ->; apply Hh; reflexivity.
  - apply (tipmap_get_nonempty _ _ _ _ Hg).
Qed.

(** ** C1: exactness of merge detection *)

(** C1.  In both scopes, a branch (other than the base and, locally, the
    checked-out branch) whose tip is the second parent of a merge commit
    [M] on the first-parent mainline of the base is classified merged;
    a branch whose tip is not reachable from the base (never merged into
    it) is not classified merged. *)
Theorem C1_merge_detection_exact :
  (forall r base bt B M p1 p2 rest,
     map_get base (heads r) = Some bt ->
     In M (first_parent_chain (parents r) (depth r) bt) ->
     parents r M = p1 :: p2 :: rest ->
     map_get B (getBranchTipMap r false) = Some p2 ->
     B <> base -> head r <> Some B ->
     In B (classify_local_merged r base)) /\
  (forall r base B t,
     map_get B (getBranchTipMap r false) = Some t ->
     (forall bt, resolve r base = Some bt -> ~ reachable (parents r) bt t) ->
     ~ In B (classify_local_merged r base)) /\
  (forall r base bt B M p1 p2 rest,
     show_ref_remote r base = true ->
     resolve r (remoteName ++ "/" ++ base) = Some bt ->
     In M (first_parent_chain (parents r) (depth r) bt) ->
     parents r M = p1 :: p2 :: rest ->
     map_get B (getBranchTipMap r true) = Some p2 ->
     B <> base ->
     In B (classify_remote_merged r base)) /\
  (forall r base B t,
     map_get B (getBranchTipMap r true) = Some t ->
     (forall bt, resolve r (remoteName ++ "/" ++ base) = Some bt ->
                 ~ reachable (parents r) bt t) ->
     ~ In B (classify_remote_merged r base)).
Proof.
  split; [|split; [|split]].
  - intros r base bt B M p1 p2 rest Hb HM Hp Ht Hnb Hnc.
    apply classify_local_merged_In; split.
    + apply (map_get_key_in _ _ _ Hb).
    + exists p2; repeat split; auto.
      * apply directly_merged_In; exists bt; split.
        -- unfold resolve; rewrite Hb; reflexivity.
        -- exists M; split; [exact HM | rewrite Hp; reflexivity].
      * apply (currentBranch_neq _ _ _ Ht Hnc).
  - intros r base B t Ht Hn Hin.
    apply classify_local_merged_In in Hin as [_ [h [Hg [Hh _]]]].
    rewrite Ht in Hg; injection Hg as <-.
    apply directly_merged_reachable in Hh as [bt [Hbt Hr]].
    exact (Hn bt Hbt Hr).
  - intros r base bt B M p1 p2 rest Hs Hb HM Hp Ht Hnb.
    apply classify_remote_merged_In; split; [exact Hs|].
    exists p2; repeat split; auto.
    apply directly_merged_In; exists bt; split; [exact Hb|].
    exists M; split; [exact HM | rewrite Hp; reflexivity].
  - intros r base B t Ht Hn Hin.
    apply classify_remote_merged_In in Hin as [_ [h [Hg [Hh _]]]].
    rewrite Ht in Hg; injection Hg as <-.
    apply directly_merged_reachable in Hh as [bt [Hbt Hr]].
    exact (Hn bt Hbt Hr).
Qed.

(** Witness of C1 on the sample history: [feature/a] is classified merged
    in both scopes and [feature/b] is not classified merged locally. *)
Lemma C1_witness :
  In "feature/a"%string (classify_local_merged sample_repo "main") /\
  ~ In "feature/b"%string (classify_local_merged sample_repo "main") /\
  In "feature/a"%string (classify_remote_merged sample_repo "main").
Proof.
  split; [|split].
  - apply (proj1 C1_merge_detection_exact sample_repo "main" "m1" "feature/a" "m1"
             "r" "a1" []); try reflexivity.
    + simpl; left; reflexivity.
    + discriminate.
    + intros [= H]; discriminate.
  - apply (proj1 (proj2 C1_merge_detection_exact) sample_repo "main" "feature/b" "b1");
      [reflexivity|].
    intros bt Hbt Hr; vm_compute in Hbt; injection Hbt as <-.
    apply (reachable_closed _ ["m1"; "r"; "a1"]) in Hr; [discriminate | reflexivity..].
  - apply (proj1 (proj2 (proj2 C1_merge_detection_exact)) sample_repo "main" "m1"
             "feature/a" "m1" "r" "a1" []); try reflexivity.
    + simpl; left; reflexivity.
    + discriminate.
Defined.

(** ** Stale classification *)

Lemma local_stale_loop_scan r base merged cut xs st hd :
  local_stale_loop r base merged cut xs st hd =
  stale_scan (fun x => x) (getBranchCommitTimestamp r) base merged cut xs st hd.
Proof.
  revert st hd; induction xs as [|x xs IH]; intros st hd; simpl; [reflexivity|].
  rewrite !IH; reflexivity.
Qed.

Lemma remote_stale_loop_scan r base merged cut xs st hd :
  remote_stale_loop r base merged cut xs st hd =
  stale_scan (substring_from (String.length remoteName + 1)) (getBranchCommitTimestamp r)
    base merged cut xs st hd.
Proof.
  revert st hd; induction xs as [|x xs IH]; intros st hd; simpl; [reflexivity|].
  rewrite !IH; reflexivity.
Qed.

(** The condition under which the scan adds [key x]. *)
Definition scan_cond (key : string -> string) (tsOf : string -> Z) base merged cut x : Prop :=
  key x <> base /\ ~ In (key x) merged /\ (0 < tsOf x)%Z /\ isStale (tsOf x) cut = true.

Lemma stale_scan_In key tsOf base merged cut xs st hd y :
  (forall z, In z hd <-> In z st) ->
  In y (fst (stale_scan key tsOf base merged cut xs st hd)) <->
  In y st \/ exists x, In x xs /\ key x = y /\ scan_cond key tsOf base merged cut x.
Proof.
  revert st hd; induction xs as [|x xs IH]; intros st hd Hinv; simpl.
  - split; [auto | intros [H|[x [[] _]]]; exact H].
  - assert (Hstep : forall st' hd', (forall z, In z hd' <-> In z st') ->
              (forall z, In z st -> In z st') ->
              (In y st' <-> In y st \/ (key x = y /\ scan_cond key tsOf base merged cut x)) ->
              In y (fst (stale_scan key tsOf base merged cut xs st' hd')) <->
              In y st \/ exists x', (x = x' \/ In x' xs) /\ key x' = y /\
                                    scan_cond key tsOf base merged cut x').
    { intros st' hd' Hinv' Hsub Hy; rewrite (IH st' hd' Hinv'), Hy; split.
      - intros [[H|[H1 H2]]|[x' [Hx' [Hk Hc]]]]; eauto 7.
      - intros [H|[x' [[<-|Hx'] [Hk Hc]]]]; eauto 7. }
    destruct (String.eqb (key x) base || set_has (key x) hd) eqn:E1.
    + apply Hstep; [exact Hinv | auto |].
      split; [auto|]; intros [H|[Hk Hc]]; [exact H|].
      destruct Hc as [Hb [Hm [Hts Hst]]].
      apply orb_true_iff in E1 as [E1|E1];
        [apply String.eqb_eq in E1; contradiction|].
      apply set_has_In, Hinv in E1; subst y; exact E1.
    + apply orb_false_iff in E1 as [Eb Eh]; apply String.eqb_neq in Eb.
      destruct (0 <? tsOf x)%Z eqn:E2; [destruct (isStale (tsOf x) cut && negb (set_has (key x) merged)) eqn:E3|].
      * apply Hstep.
        -- intros z; rewrite !set_add_In, Hinv; tauto.
        -- intros z Hz; apply set_add_In; auto.
        -- rewrite set_add_In; apply andb_true_iff in E3 as [E3 E4];
             apply negb_true_iff, set_has_false in E4; apply Z.ltb_lt in E2.
           split; [intros [<-|H]; [right; repeat split; auto | auto]|].
           intros [H|[<- _]]; auto.
      * apply Hstep; [exact Hinv | auto |].
        split; [auto|]; intros [H|[Hk [Hb [Hm [Hts Hst]]]]]; [exact H|].
        rewrite Hst in E3; simpl in E3; apply negb_false_iff, set_has_In in E3.
        contradiction.
      * apply Hstep; [exact Hinv | auto |].
        split; [auto|]; intros [H|[Hk [Hb [Hm [Hts Hst]]]]]; [exact H|].
        apply Z.ltb_ge in E2; lia.
Qed.

(** ** Strings *)

Lemma string_length_app p t :
  String.length (p ++ t) = (String.length p + String.length t)%nat.
Proof. induction p as [|a p IH]; simpl; [reflexivity | rewrite IH; reflexivity]. Qed.

Lemma substring_full t : String.substring 0 (String.length t) t = t.
Proof. induction t as [|a t IH]; simpl; [reflexivity | rewrite IH; reflexivity]. Qed.

Lemma substring_from_app p t : substring_from (String.length p) (p ++ t) = t.
Proof.
  unfold substring_from; rewrite string_length_app, Nat.add_comm, Nat.add_sub.
  induction p as [|a p IH]; simpl; [apply substring_full | exact IH].
Qed.

Lemma prefix_app p t : String.prefix p (p ++ t) = true.
Proof.
  induction p as [|a p IH]; simpl; [destruct t; reflexivity|].
  destruct (ascii_dec a a) as [_|n]; [exact IH | contradiction].
Qed.

Lemma prefix_split p x :
  String.prefix p x = true -> x = (p ++ substring_from (String.length p) x)%string.
Proof.
  revert x; induction p as [|a p IH]; intros x H.
  - unfold substring_from; simpl; rewrite Nat.sub_0_r, substring_full; reflexivity.
  - destruct x as [|b x]; simpl in H; [discriminate|].
    destruct (ascii_dec a b) as [<-|n]; [|discriminate].
    rewrite (IH x H) at 1; unfold substring_from; simpl; reflexivity.
Qed.

Lemma remote_key_app y :
  substring_from (String.length remoteName + 1) (remoteName ++ "/" ++ y) = y.
Proof.
  change (remoteName ++ "/" ++ y) with (("origin/" : string) ++ y).
  apply (substring_from_app "origin/").
Qed.

(** ** C2: the stale cut-off *)

(** C2 (counterexample).  On the sample history with [now = 86500000] ms
    and a 1-day threshold the cut-off is 100 s, exactly the timestamp of
    [feature/b], and [feature/b] is classified stale. *)
Lemma C2_counterexample :
  (getBranchCommitTimestamp sample_repo "feature/b" * 1000 = staleCut 86500000 1)%Z /\
  In "feature/b" (classify_local_stale sample_repo "main" [] (staleCut 86500000 1)).
Proof.
  split; [vm_compute; reflexivity|].
  apply set_has_In; vm_compute; reflexivity.
Qed.

(** C2 (amended).  A branch with a known timestamp [ts > 0], not the base
    branch and not merged, is classified stale exactly when
    [ts <= now/1000 - days*86400], i.e. [1000*ts <= now_ms - days*86400000]:
    a timestamp equal to the cut-off is stale, as is one a second older;
    one a second newer is not.  Local scope and remote scope. *)
Theorem C2_stale_cutoff_inclusive :
  (forall r base merged now days b,
     In b (git_branch_names r) -> b <> base -> ~ In b merged ->
     (0 < getBranchCommitTimestamp r b)%Z ->
     (In b (classify_local_stale r base merged (staleCut now days)) <->
      (getBranchCommitTimestamp r b * 1000 <= now - days * 86400000)%Z)) /\
  (forall r base merged now days y,
     In y (map fst (tracking r)) -> y <> base -> ~ In y merged ->
     (0 < getBranchCommitTimestamp r (remoteName ++ "/" ++ y))%Z ->
     (In y (classify_remote_stale r base merged (staleCut now days)) <->
      (getBranchCommitTimestamp r (remoteName ++ "/" ++ y) * 1000
         <= now - days * 86400000)%Z)).
Proof.
  split.
  - intros r base merged now days b Hb Hnb Hnm Hts.
    unfold classify_local_stale; rewrite local_stale_loop_scan, stale_scan_In by tauto.
    split.
    + intros [[]|[x [_ [<- [_ [_ [_ Hst]]]]]]]; apply Z.leb_le in Hst; exact Hst.
    + intros Hle; right; exists b; repeat split; auto; apply Z.leb_le; exact Hle.
  - intros r base merged now days y Hy Hnb Hnm Hts.
    unfold classify_remote_stale; rewrite remote_stale_loop_scan, stale_scan_In by tauto.
    split.
    + intros [[]|[x [Hx [Hk [_ [_ [_ Hst]]]]]]].
      apply filter_In in Hx as [_ Hf].
      unfold remote_branch_filter in Hf; apply andb_true_iff in Hf as [Hf _];
        apply andb_true_iff in Hf as [_ Hp].
      apply prefix_split in Hp; change (String.length (remoteName ++ "/"))
        with (String.length remoteName + 1)%nat in Hp.
      rewrite Hk in Hp.
      assert (Hx' : x = (remoteName ++ "/" ++ y)%string) by (rewrite Hp; reflexivity).
      rewrite <- Hx'.
      apply Z.leb_le; exact Hst.
    + intros Hle; right; exists (remoteName ++ "/" ++ y)%string.
      unfold scan_cond; rewrite remote_key_app.
      split; [|split; [reflexivity | repeat split; auto; apply Z.leb_le; exact Hle]].
      apply filter_In; split.
      * unfold git_branch_r; apply in_map_iff in Hy as [[k h] [<- Hkh]].
        apply in_map_iff; exists (k, h); split; [reflexivity | exact Hkh].
      * unfold remote_branch_filter.
        replace (String.prefix (remoteName ++ "/") (remoteName ++ "/" ++ y)) with true
          by (symmetry; exact (prefix_app "origin/" y)).
        reflexivity.
Qed.

(** Witness of C2: [feature/b], committed at exactly the cut-off, is stale. *)
Lemma C2_witness :
  In "feature/b" (classify_local_stale sample_repo "main" [] (staleCut 86500000 1)).
Proof.
  apply (proj1 C2_stale_cutoff_inclusive sample_repo "main" [] 86500000 1 "feature/b").
  - simpl; auto.
  - discriminate.
  - intros [].
  - vm_compute; reflexivity.
  - vm_compute; discriminate.
Defined.

(** ** Reasoning about the monad *)

(** [m] leaves the projection [f] of the state unchanged, whatever the
    outcome. *)
Definition preserves {A T : Type} (f : State -> T) (m : M A) : Prop :=
  forall e s, f (snd (m e s)) = f s.

Lemma bind_inv {A B : Type} (m : M A) (k : A -> M B) e s b s' :
  bind m k e s = (Some b, s') ->
  exists a s1, m e s = (Some a, s1) /\ k a e s1 = (Some b, s').
Proof.
  unfold bind; destruct (m e s) as [[a|] s1]; [eauto | discriminate].
Qed.

Lemma preserves_ret {A T : Type} (f : State -> T) (a : A) : preserves f (ret a).
Proof. intros e s; reflexivity. Qed.

Lemma preserves_bind {A B T : Type} (f : State -> T) (m : M A) (k : A -> M B) :
  preserves f m -> (forall a, preserves f (k a)) -> preserves f (bind m k).
Proof.
  intros Hm Hk e s; unfold bind.
  specialize (Hm e s); destruct (m e s) as [[a|] s1]; simpl in *; [|exact Hm].
  rewrite Hk; exact Hm.
Qed.

Lemma preserves_catch {A T : Type} (f : State -> T) (m h : M A) :
  preserves f m -> preserves f h -> preserves f (catch m h).
Proof.
  intros Hm Hh e s; unfold catch.
  specialize (Hm e s); destruct (m e s) as [[a|] s1]; simpl in *; [exact Hm|].
  rewrite Hh; exact Hm.
Qed.

Lemma runCommand_ticks c : preserves ticks (runCommand c).
Proof. intros e s; unfold runCommand; destruct (exec_cmd c (repo s)); reflexivity. Qed.

Lemma runCommand_prompts c : preserves prompts (runCommand c).
Proof. intros e s; unfold runCommand; destruct (exec_cmd c (repo s)); reflexivity. Qed.

Lemma select_ticks bs : preserves ticks (selectBranchesToDelete bs).
Proof. intros e s; unfold selectBranchesToDelete; destruct bs; reflexivity. Qed.

Lemma delete_batch_ticks mk bs d f : preserves ticks (delete_batch mk bs d f).
Proof.
  revert d f; induction bs as [|b bs IH]; intros d f; simpl; [apply preserves_ret|].
  apply preserves_bind.
  - apply preserves_catch; [apply preserves_bind; [apply runCommand_ticks | intros; apply preserves_ret]|].
    apply preserves_ret.
  - intros [|]; apply IH.
Qed.

Lemma deletion_step_ticks dry cands mk : preserves ticks (deletion_step dry cands mk).
Proof.
  unfold deletion_step; destruct dry; [apply preserves_ret|].
  apply preserves_bind; [apply select_ticks|].
  intros [|b bs]; [apply preserves_ret | apply delete_batch_ticks].
Qed.

Lemma preserves_Some {A T : Type} (f : State -> T) (m : M A) e s a s' :
  preserves f m -> m e s = (Some a, s') -> f s' = f s.
Proof. intros Hp Hm; specialize (Hp e s); rewrite Hm in Hp; exact Hp. Qed.

Lemma emit_ticks m : preserves ticks (emit m).
Proof. intros e s; reflexivity. Qed.

Lemma when_ticks (c : bool) (m : M unit) :
  preserves ticks m -> preserves ticks (if c then m else ret tt).
Proof. intros Hm; destruct c; [exact Hm | apply preserves_ret]. Qed.

Ltac bstep H a s1 Hm :=
  apply bind_inv in H as [a [s1 [Hm H]]]; cbv beta zeta in H.

(** What [remote_steps] computes. *)
Lemma remote_steps_shape argv d e s res s' :
  remote_steps argv d e s = (Some res, s') -> a_remote argv = true ->
  match res with
  | (rm, rs, cut, _, _) =>
      exists r3, rm = classify_remote_merged r3 (a_base argv) /\
      (if stale_given argv then
         cut = Some (staleCut (clock e (ticks s)) d) /\
         exists r4, rs = classify_remote_stale r4 (a_base argv) rm
                           (staleCut (clock e (ticks s)) d)
       else rs = [] /\ cut = None) /\
      ticks s' = (ticks s + if stale_given argv then 1 else 0)%nat
  end.
Proof.
  intros H Hr; unfold remote_steps in H; rewrite Hr in H.
  bstep H g s1 Hg; unfold get_repo in Hg; injection Hg as <- <-.
  bstep H st s2 Hs.
  assert (Hst : match st with
                | (rs, cut) =>
                    (if stale_given argv then
                       cut = Some (staleCut (clock e (ticks s)) d) /\
                       exists r4, rs = classify_remote_stale r4 (a_base argv)
                                         (classify_remote_merged (repo s) (a_base argv))
                                         (staleCut (clock e (ticks s)) d)
                     else rs = [] /\ cut = None) /\
                    ticks s2 = (ticks s + if stale_given argv then 1 else 0)%nat
                end).
  { destruct (stale_given argv); simpl in Hs.
    - bstep Hs n s3 Hn; unfold date_now in Hn; injection Hn as <- <-.
      bstep Hs g s4 Hg; unfold get_repo in Hg; injection Hg as <- <-.
      injection Hs as <- <-; simpl; split; [split; [reflexivity | eauto] | lia].
    - injection Hs as <- <-; simpl; split; [split; reflexivity | lia]. }
  destruct st as [rs cut].
  bstep H c1 s3 Hd1; destruct c1 as [rmd rmf].
  apply (preserves_Some _ _ _ _ _ _ (deletion_step_ticks _ _ _)) in Hd1.
  bstep H c2 s4 Hd2; destruct c2 as [rsd rsf].
  apply (preserves_Some _ _ _ _ _ _ (deletion_step_ticks _ _ _)) in Hd2.
  bstep H u s5 Hp.
  apply (preserves_Some _ _ _ _ _ _ (when_ticks _ _ (runCommand_ticks _))) in Hp.
  injection H as <- <-.
  exists (repo s); split; [reflexivity|].
  destruct Hst as [Hst Ht]; split; [exact Hst | congruence].
Qed.

(** What [main] computes: the candidate sets are those of the
    classification functions, the stale cut-offs come from the first and
    second reading of the clock, and the clock is read once per scope. *)
Lemma main_shape argv d e s rep s' :
  main argv d e s = (Some rep, s') ->
  (exists r1, localMergedToDelete rep = classify_local_merged r1 (a_base argv)) /\
  (if stale_given argv then
     localCut rep = Some (staleCut (clock e (ticks s)) d) /\
     exists r2, localStaleToDelete rep =
                classify_local_stale r2 (a_base argv) (localMergedToDelete rep)
                  (staleCut (clock e (ticks s)) d)
   else localStaleToDelete rep = [] /\ localCut rep = None) /\
  (if a_remote argv then
     (exists r3, remoteMergedToDelete rep = classify_remote_merged r3 (a_base argv)) /\
     (if stale_given argv then
        remoteCut rep = Some (staleCut (clock e (S (ticks s))) d) /\
        exists r4, remoteStaleToDelete rep =
                   classify_remote_stale r4 (a_base argv) (remoteMergedToDelete rep)
                     (staleCut (clock e (S (ticks s))) d)
      else remoteStaleToDelete rep = [] /\ remoteCut rep = None)
   else remoteMergedToDelete rep = [] /\ remoteStaleToDelete rep = [] /\
        remoteCut rep = None) /\
  ticks s' = (ticks s + if stale_given argv then (if a_remote argv then 2 else 1) else 0)%nat.
Proof.
  intros H; unfold main in H.
  bstep H u s1 Hf.
  apply (preserves_Some _ _ _ _ _ _ (runCommand_ticks _)) in Hf.
  bstep H g s2 Hg; unfold get_repo in Hg; injection Hg as <- <-.
  bstep H st s3 Hs.
  assert (Hst : match st with
                | (ls, cut) =>
                    (if stale_given argv then
                       cut = Some (staleCut (clock e (ticks s)) d) /\
                       exists r2, ls = classify_local_stale r2 (a_base argv)
                                         (classify_local_merged (repo s1) (a_base argv))
                                         (staleCut (clock e (ticks s)) d)
                     else ls = [] /\ cut = None) /\
                    ticks s3 = (ticks s + if stale_given argv then 1 else 0)%nat
                end).
  { destruct (stale_given argv); simpl in Hs.
    - bstep Hs n s4 Hn; unfold date_now in Hn; injection Hn as <- <-.
      bstep Hs g s5 Hg; unfold get_repo in Hg; injection Hg as <- <-.
      injection Hs as <- <-; simpl; rewrite Hf.
      split; [split; [reflexivity | eauto] | lia].
    - injection Hs as <- <-; simpl; split; [split; reflexivity | lia]. }
  destruct st as [ls lcut].
  bstep H c1 s4 Hd1; destruct c1 as [lmd lmf].
  apply (preserves_Some _ _ _ _ _ _ (deletion_step_ticks _ _ _)) in Hd1.
  bstep H c2 s5 Hd2; destruct c2 as [lsd lsf].
  apply (preserves_Some _ _ _ _ _ _ (deletion_step_ticks _ _ _)) in Hd2.
  bstep H rr s6 Hr.
  assert (Hrem : match rr with
                 | (rm, rs, rcut, _, _) =>
                     (if a_remote argv then
                        (exists r3, rm = classify_remote_merged r3 (a_base argv)) /\
                        (if stale_given argv then
                           rcut = Some (staleCut (clock e (S (ticks s))) d) /\
                           exists r4, rs = classify_remote_stale r4 (a_base argv) rm
                                             (staleCut (clock e (S (ticks s))) d)
                         else rs = [] /\ rcut = None)
                      else rm = [] /\ rs = [] /\ rcut = None) /\
                     ticks s6 = (ticks s + if stale_given argv
                                           then (if a_remote argv then 2 else 1) else 0)%nat
                 end).
  { destruct (a_remote argv) eqn:Ear.
    - pose proof (remote_steps_shape _ _ _ _ _ _ Hr Ear) as Hsh.
      destruct rr as [[[[rm rs] rcut] rd] rf].
      destruct Hsh as [r3 [Hrm [Hrs Ht]]].
      destruct Hst as [_ Ht3].
      assert (Hts5 : ticks s5 = (ticks s + if stale_given argv then 1 else 0)%nat) by congruence.
      rewrite Hts5 in Hrs, Ht.
      split; [split; [eauto|] | rewrite Ht; destruct (stale_given argv); lia].
      destruct (stale_given argv); [|exact Hrs].
      replace (ticks s + 1)%nat with (S (ticks s)) in Hrs by lia; exact Hrs.
    - injection Hr as <- <-; simpl; split; [repeat split|].
      destruct Hst as [_ Ht3]; rewrite Hd2, Hd1, Ht3; destruct (stale_given argv); lia. }
  destruct rr as [[[[rm rs] rcut] rd] rf].
  bstep H u1 s7 He1.
  apply (preserves_Some _ _ _ _ _ _ (when_ticks _ _ (emit_ticks _))) in He1.
  bstep H u2 s8 He2.
  apply (preserves_Some _ _ _ _ _ _ (emit_ticks _)) in He2.
  bstep H u3 s9 He3.
  assert (Ht9 : ticks s9 = ticks s8)
    by (destruct (a_remote argv); exact (preserves_Some _ _ _ _ _ _ (emit_ticks _) He3)).
  injection H as <- <-; simpl.
  destruct Hst as [Hls _]; destruct Hrem as [Hrm Ht6].
  split; [eauto|]; split; [exact Hls|]; split; [exact Hrm|]; congruence.
Qed.

(** The local scope of a completed run works on the repository left by the
    first [git fetch origin --prune]. *)
Lemma main_fetched_repo argv d e s rep s' :
  main argv d e s = (Some rep, s') ->
  exists r1, exec_cmd FetchPrune (repo s) = Some r1 /\
  localMergedToDelete rep = classify_local_merged r1 (a_base argv) /\
  (if stale_given argv then
     localStaleToDelete rep =
     classify_local_stale r1 (a_base argv) (localMergedToDelete rep)
       (staleCut (clock e (ticks s)) d)
   else True).
Proof.
  intros H; unfold main in H.
  bstep H u s1 Hf; unfold runCommand in Hf.
  destruct (exec_cmd FetchPrune (repo s)) as [r1|] eqn:Er; [|discriminate].
  injection Hf as _ <-; exists r1; split; [reflexivity|].
  bstep H g s2 Hg; unfold get_repo in Hg; injection Hg as <- <-; cbn [repo ticks] in H.
  bstep H st s3 Hs.
  assert (Hst : match st with
                | (ls, _) =>
                    if stale_given argv then
                      ls = classify_local_stale r1 (a_base argv)
                             (classify_local_merged r1 (a_base argv))
                             (staleCut (clock e (ticks s)) d)
                    else True
                end).
  { destruct (stale_given argv); simpl in Hs; [|destruct st; exact I].
    bstep Hs n s4 Hn; unfold date_now in Hn; injection Hn as <- <-.
    bstep Hs g s5 Hg; unfold get_repo in Hg; injection Hg as <- <-.
    injection Hs as <- _; reflexivity. }
  destruct st as [ls lcut].
  bstep H c1 s4 Hd1; destruct c1 as [lmd lmf].
  bstep H c2 s5 Hd2; destruct c2 as [lsd lsf].
  bstep H rr s6 Hr; destruct rr as [[[[rm rs] rcut] rd] rf].
  bstep H u1 s7 He1.
  bstep H u2 s8 He2.
  bstep H u3 s9 He3.
  injection H as <- _; simpl; split; [reflexivity | exact Hst].
Qed.

Lemma program_Some_repo argv e s rep s' :
  program argv e s = (Some rep, s') ->
  exists s1, main argv (snd (parseStaleDays (a_stale argv))) e s1 = (Some rep, s') /\
             ticks s1 = ticks s /\ repo s1 = repo s.
Proof.
  unfold program; destruct (parseStaleDays (a_stale argv)) as [warn days]; simpl.
  destruct warn; unfold bind, ret, emit; simpl;
  match goal with
  | |- context [main ?a days e ?s1] => destruct (main a days e s1) as [[r|] s2] eqn:Es
  end; intros H; try discriminate; injection H as -> ->; eexists; split; eauto.
Qed.

(** ** C5: dry runs *)

Lemma main_dry base remote stale d e s :
  let (res, s') := main (mkArgs base remote stale true) d e s in
  journal s' = (journal s ++ [FetchPrune])%list /\
  heads (repo s') = heads (repo s) /\
  origin_heads (repo s') = origin_heads (repo s) /\
  prompts s' = prompts s /\
  tracking (repo s') =
    (if origin_reachable (repo s) then origin_heads (repo s) else tracking (repo s)) /\
  match res with
  | Some rep =>
      totalLocalDeleted rep = 0%nat /\ totalLocalFailed rep = 0%nat /\
      totalRemoteDeleted rep = 0%nat /\ totalRemoteFailed rep = 0%nat /\
      In DryRunComplete (out s')
  | None => True
  end.
Proof.
  unfold main, remote_steps, stale_given, deletion_step, bind, ret, emit, runCommand,
    get_repo, date_now, exec_cmd.
  cbn [a_base a_remote a_stale a_dry_run].
  destruct (origin_reachable (repo s)) eqn:Eo; destruct stale, remote; simpl;
    repeat split; auto; rewrite ?Eo; try reflexivity;
    try (rewrite !in_app_iff; simpl; tauto).
Qed.

(** C5 (counterexample).  A dry run on the sample history changes the
    remote-tracking branches: the initial [git fetch origin --prune] runs
    and removes [origin/gone], which no longer exists on [origin]. *)
Lemma C5_counterexample :
  let (_, s') := program (mkArgs "main" true (Some "30") true) sample_env sample_state in
  tracking (repo s') <> tracking (repo sample_state).
Proof. vm_compute; discriminate. Qed.

(** C5 (amended).  With [--dry-run], whatever the other flags, the only
    mutating command attempted is the initial [git fetch origin --prune]:
    no deletion is attempted and no prompt is shown, local branches and the
    branches on [origin] are unchanged, the remote-tracking branches become
    those of [origin] (when it is reachable), and a completed run reports
    zero deletions and failures and prints that no branches were deleted. *)
Theorem C5_dry_run_only_prunes :
  forall base remote stale e s,
  let (res, s') := program (mkArgs base remote stale true) e s in
  journal s' = (journal s ++ [FetchPrune])%list /\
  heads (repo s') = heads (repo s) /\
  origin_heads (repo s') = origin_heads (repo s) /\
  prompts s' = prompts s /\
  tracking (repo s') =
    (if origin_reachable (repo s) then origin_heads (repo s) else tracking (repo s)) /\
  match res with
  | Some rep =>
      totalLocalDeleted rep = 0%nat /\ totalLocalFailed rep = 0%nat /\
      totalRemoteDeleted rep = 0%nat /\ totalRemoteFailed rep = 0%nat /\
      In DryRunComplete (out s')
  | None => True
  end.
Proof.
  intros base remote stale e s; unfold program; cbn [a_stale].
  destruct (parseStaleDays stale) as [warn days].
  destruct warn; unfold bind, ret, emit; simpl;
  match goal with
  | |- context [main ?a days e ?s1] =>
      pose proof (main_dry base remote stale days e s1) as Hm;
      destruct (main a days e s1) as [[rep|] s'] eqn:Es
  end; simpl in *; exact Hm.
Qed.

(** ** The whole script *)

Lemma program_Some argv e s rep s' :
  program argv e s = (Some rep, s') ->
  exists s1, main argv (snd (parseStaleDays (a_stale argv))) e s1 = (Some rep, s') /\
             ticks s1 = ticks s.
Proof.
  unfold program; destruct (parseStaleDays (a_stale argv)) as [warn days]; simpl.
  destruct warn; unfold bind, ret, emit; simpl;
  match goal with
  | |- context [main ?a days e ?s1] => destruct (main a days e s1) as [[r|] s2] eqn:Es
  end; intros H; try discriminate; injection H as -> ->; eexists; split; eauto.
Qed.

Lemma classify_local_stale_not_merged r base merged cut y :
  In y merged -> ~ In y (classify_local_stale r base merged cut).
Proof.
  intros Hm Hin; unfold classify_local_stale in Hin.
  rewrite local_stale_loop_scan, stale_scan_In in Hin by tauto.
  destruct Hin as [[]|[x [_ [<- [_ [Hn _]]]]]]; contradiction.
Qed.

Lemma classify_remote_stale_not_merged r base merged cut y :
  In y merged -> ~ In y (classify_remote_stale r base merged cut).
Proof.
  intros Hm Hin; unfold classify_remote_stale in Hin.
  rewrite remote_stale_loop_scan, stale_scan_In in Hin by tauto.
  destruct Hin as [[]|[x [_ [<- [_ [Hn _]]]]]]; contradiction.
Qed.

(** ** C4: merged and stale candidates are disjoint *)

(** C4.  In every completed run, in each scope, no branch is both a merged
    candidate and a stale candidate. *)
Theorem C4_merged_stale_disjoint :
  forall argv e s,
  match fst (program argv e s) with
  | Some rep =>
      (forall y, In y (localMergedToDelete rep) -> ~ In y (localStaleToDelete rep)) /\
      (forall y, In y (remoteMergedToDelete rep) -> ~ In y (remoteStaleToDelete rep))
  | None => True
  end.
Proof.
  intros argv e s; destruct (program argv e s) as [[rep|] s'] eqn:Ep; [simpl|exact I].
  apply program_Some in Ep as [s1 [Hm _]].
  apply main_shape in Hm as [_ [Hl [Hr _]]].
  split.
  - intros y Hy; destruct (stale_given argv).
    + destruct Hl as [_ [r2 ->]]; apply classify_local_stale_not_merged, Hy.
    + destruct Hl as [-> _]; intros [].
  - intros y Hy; destruct (a_remote argv).
    + destruct Hr as [_ Hr]; destruct (stale_given argv).
      * destruct Hr as [_ [r4 ->]]; apply classify_remote_stale_not_merged, Hy.
      * destruct Hr as [-> _]; intros [].
    + destruct Hr as [Hm _]; rewrite Hm in Hy; destruct Hy.
Qed.

(** Witness of C4: on the sample history with a 0-day threshold,
    [feature/a] is a merged candidate and therefore not a stale one. *)
Lemma C4_witness :
  match fst (program (mkArgs "main" true (Some "0") true) sample_env sample_state) with
  | Some rep =>
      In "feature/a" (localMergedToDelete rep) /\ ~ In "feature/a" (localStaleToDelete rep)
  | None => False
  end.
Proof.
  generalize (C4_merged_stale_disjoint (mkArgs "main" true (Some "0") true)
                sample_env sample_state).
  vm_compute; intros [H1 _]; split; [left; reflexivity | apply H1; left; reflexivity].
Defined.

(** ** The stale gate and the clock readings *)

Lemma parse_days_none : snd (parseStaleDays None) = 120%Z.
Proof. reflexivity. Qed.





(** C7 (amended).  With [--stale] and [--remote] the program reads the clock
    twice: the local cut-off uses the first reading, the remote cut-off the
    second; within a scope one cut-off serves every branch. *)
Theorem C7_one_clock_reading_per_scope :
  forall base v dry e s,
  let (res, s') := program (mkArgs base true (Some v) dry) e s in
  match res with
  | Some rep =>
      let days := snd (parseStaleDays (Some v)) in
      localCut rep = Some (staleCut (clock e (ticks s)) days) /\
      remoteCut rep = Some (staleCut (clock e (S (ticks s))) days) /\
      (exists r2, localStaleToDelete rep =
         classify_local_stale r2 base (localMergedToDelete rep)
           (staleCut (clock e (ticks s)) days)) /\
      (exists r4, remoteStaleToDelete rep =
         classify_remote_stale r4 base (remoteMergedToDelete rep)
           (staleCut (clock e (S (ticks s))) days)) /\
      ticks s' = (ticks s + 2)%nat
  | None => True
  end.
Proof.
  intros base v dry e s.
  destruct (program _ e s) as [[rep|] s'] eqn:Ep; [|exact I].
  apply program_Some in Ep as [s1 [Hm Ht]]; apply main_shape in Hm as [_ [Hl [Hr Hs]]].
  cbn [stale_given a_stale a_remote a_base] in Hl, Hr, Hs; rewrite Ht in Hl, Hr, Hs.
  destruct Hl as [Hl1 Hl2]; destruct Hr as [_ [Hr1 Hr2]]; simpl; tauto.
Qed.

(** ** The output log only grows *)

Definition out_grows {A : Type} (m : M A) : Prop :=
  forall e s, exists l, out (snd (m e s)) = (out s ++ l)%list.

Lemma out_grows_ret {A : Type} (a : A) : out_grows (ret a).
Proof. intros e s; exists []; simpl; rewrite app_nil_r; reflexivity. Qed.

Lemma out_grows_bind {A B : Type} (m : M A) (k : A -> M B) :
  out_grows m -> (forall a, out_grows (k a)) -> out_grows (bind m k).
Proof.
  intros Hm Hk e s; unfold bind.
  destruct (Hm e s) as [l1 H1]; destruct (m e s) as [[a|] s1]; simpl in *; [|eauto].
  destruct (Hk a e s1) as [l2 H2]; exists (l1 ++ l2)%list.
  rewrite H2, H1, app_assoc; reflexivity.
Qed.

Lemma out_grows_catch {A : Type} (m h : M A) :
  out_grows m -> out_grows h -> out_grows (catch m h).
Proof.
  intros Hm Hh e s; unfold catch.
  destruct (Hm e s) as [l1 H1]; destruct (m e s) as [[a|] s1]; simpl in *; [eauto|].
  destruct (Hh e s1) as [l2 H2]; exists (l1 ++ l2)%list.
  rewrite H2, H1, app_assoc; reflexivity.
Qed.

Lemma out_grows_emit m : out_grows (emit m).
Proof. intros e s; exists [m]; reflexivity. Qed.

Lemma out_grows_get_repo : out_grows get_repo.
Proof. intros e s; exists []; simpl; rewrite app_nil_r; reflexivity. Qed.

Lemma out_grows_date_now : out_grows date_now.
Proof. intros e s; exists []; simpl; rewrite app_nil_r; reflexivity. Qed.

Lemma out_grows_runCommand c : out_grows (runCommand c).
Proof.
  intros e s; exists []; unfold runCommand; rewrite app_nil_r.
  destruct (exec_cmd c (repo s)); reflexivity.
Qed.

Lemma out_grows_select bs : out_grows (selectBranchesToDelete bs).
Proof.
  intros e s; exists []; unfold selectBranchesToDelete; rewrite app_nil_r.
  destruct bs; reflexivity.
Qed.

Create HintDb grows.

#[local] Hint Resolve out_grows_ret out_grows_emit out_grows_get_repo out_grows_date_now
  out_grows_runCommand out_grows_select : grows.

Ltac grows :=
  repeat (match goal with
          | |- out_grows (bind _ _) => apply out_grows_bind; [|intros ?]
          | |- out_grows (catch _ _) => apply out_grows_catch
          | |- out_grows (match ?x with pair _ _ => _ end) => destruct x
          | |- out_grows (match ?x with [] => _ | _ :: _ => _ end) => destruct x
          | |- out_grows (if ?b then _ else _) => destruct b
          end; auto with grows); auto with grows.

Lemma out_grows_delete_batch mk bs d f : out_grows (delete_batch mk bs d f).
Proof.
  revert d f; induction bs as [|b bs IH]; intros d f; simpl; [apply out_grows_ret|grows; apply IH].
Qed.

Lemma out_grows_deletion_step dry cands mk : out_grows (deletion_step dry cands mk).
Proof. unfold deletion_step; grows; apply out_grows_delete_batch. Qed.

#[local] Hint Resolve out_grows_delete_batch out_grows_deletion_step : grows.

Lemma out_grows_remote_steps argv d : out_grows (remote_steps argv d).
Proof. unfold remote_steps; grows. Qed.

#[local] Hint Resolve out_grows_remote_steps : grows.

Lemma out_grows_main argv d : out_grows (main argv d).
Proof. unfold main; grows. Qed.

(** ** Invalid stale values *)

(** Every message [m] adds to the output is one of its own, never a
    warning. *)
Definition out_nowarn {A : Type} (m : M A) : Prop :=
  forall e s, exists l, out (snd (m e s)) = (out s ++ l)%list /\
                        forallb (fun x => negb (is_warning x)) l = true.

Lemma out_nowarn_ret {A : Type} (a : A) : out_nowarn (ret a).
Proof. intros e s; exists []; simpl; rewrite app_nil_r; split; reflexivity. Qed.

Lemma out_nowarn_bind {A B : Type} (m : M A) (k : A -> M B) :
  out_nowarn m -> (forall a, out_nowarn (k a)) -> out_nowarn (bind m k).
Proof.
  intros Hm Hk e s; unfold bind.
  destruct (Hm e s) as [l1 [H1 W1]]; destruct (m e s) as [[a|] s1]; simpl in *; [|eauto].
  destruct (Hk a e s1) as [l2 [H2 W2]]; exists (l1 ++ l2)%list.
  rewrite H2, H1, app_assoc, forallb_app, W1, W2; split; reflexivity.
Qed.

Lemma out_nowarn_catch {A : Type} (m h : M A) :
  out_nowarn m -> out_nowarn h -> out_nowarn (catch m h).
Proof.
  intros Hm Hh e s; unfold catch.
  destruct (Hm e s) as [l1 [H1 W1]]; destruct (m e s) as [[a|] s1]; simpl in *; [eauto|].
  destruct (Hh e s1) as [l2 [H2 W2]]; exists (l1 ++ l2)%list.
  rewrite H2, H1, app_assoc, forallb_app, W1, W2; split; reflexivity.
Qed.

Lemma out_nowarn_emit m : is_warning m = false -> out_nowarn (emit m).
Proof. intros H e s; exists [m]; simpl; rewrite H; split; reflexivity. Qed.

Lemma out_nowarn_get_repo : out_nowarn get_repo.
Proof. intros e s; exists []; simpl; rewrite app_nil_r; split; reflexivity. Qed.

Lemma out_nowarn_date_now : out_nowarn date_now.
Proof. intros e s; exists []; simpl; rewrite app_nil_r; split; reflexivity. Qed.

Lemma out_nowarn_runCommand c : out_nowarn (runCommand c).
Proof.
  intros e s; exists []; unfold runCommand; rewrite app_nil_r.
  destruct (exec_cmd c (repo s)); split; reflexivity.
Qed.

Lemma out_nowarn_select bs : out_nowarn (selectBranchesToDelete bs).
Proof.
  intros e s; exists []; unfold selectBranchesToDelete; rewrite app_nil_r.
  destruct bs; split; reflexivity.
Qed.

Create HintDb nowarn.

#[local] Hint Resolve out_nowarn_ret out_nowarn_get_repo out_nowarn_date_now
  out_nowarn_runCommand out_nowarn_select : nowarn.
#[local] Hint Extern 1 (out_nowarn (emit _)) => apply out_nowarn_emit; reflexivity : nowarn.

Ltac nowarn :=
  repeat (match goal with
          | |- out_nowarn (bind _ _) => apply out_nowarn_bind; [|intros ?]
          | |- out_nowarn (catch _ _) => apply out_nowarn_catch
          | |- out_nowarn (match ?x with pair _ _ => _ end) => destruct x
          | |- out_nowarn (match ?x with [] => _ | _ :: _ => _ end) => destruct x
          | |- out_nowarn (if ?b then _ else _) => destruct b
          end; auto with nowarn); auto with nowarn.

Lemma out_nowarn_delete_batch mk bs d f : out_nowarn (delete_batch mk bs d f).
Proof.
  revert d f; induction bs as [|b bs IH]; intros d f; simpl; [apply out_nowarn_ret|nowarn; apply IH].
Qed.

Lemma out_nowarn_deletion_step dry cands mk : out_nowarn (deletion_step dry cands mk).
Proof. unfold deletion_step; nowarn; apply out_nowarn_delete_batch. Qed.

#[local] Hint Resolve out_nowarn_delete_batch out_nowarn_deletion_step : nowarn.

Lemma out_nowarn_remote_steps argv d : out_nowarn (remote_steps argv d).
Proof. unfold remote_steps; nowarn. Qed.

#[local] Hint Resolve out_nowarn_remote_steps : nowarn.

Lemma out_nowarn_main argv d : out_nowarn (main argv d).
Proof. unfold main; nowarn. Qed.

Lemma no_warning_In l w :
  forallb (fun x => negb (is_warning x)) l = true -> ~ In (WarnInvalidStale w) l.
Proof.
  intros H Hin; apply forallb_forall with (x := WarnInvalidStale w) in H;
    [discriminate | exact Hin].
Qed.

(** *** What [parseInt] reads *)

Lemma str_app_assoc (a b c : string) : ((a ++ b) ++ c = a ++ b ++ c)%string.
Proof. induction a as [|x a IH]; simpl; [reflexivity | rewrite IH; reflexivity]. Qed.

Lemma skip_spaces_utf8 cp t :
  In cp js_white_space -> skip_spaces (utf8 cp ++ t) = skip_spaces t.
Proof.
  intros H; repeat (destruct H as [<-|H]; [reflexivity|]); destruct H.
Qed.

Lemma skip_spaces_js_spaces cps t :
  Forall (fun cp => In cp js_white_space) cps ->
  skip_spaces (js_spaces cps ++ t) = skip_spaces t.
Proof.
  intros H; induction H as [|cp cps Hcp _ IH]; [reflexivity|].
  cbn [js_spaces fold_right]; rewrite str_app_assoc, skip_spaces_utf8 by exact Hcp.
  exact IH.
Qed.

Lemma digit_of_char d : (d < 10)%nat -> digit_of (digit_char d) = Some (Z.of_nat d).
Proof. intros H; do 10 (destruct d as [|d]; [reflexivity|]); lia. Qed.

Lemma skip_spaces_digit d t :
  (d < 10)%nat -> skip_spaces (String (digit_char d) t) = String (digit_char d) t.
Proof.
  intros H; do 10 (destruct d as [|d]; [destruct t as [|c2 [|c3 t3]]; reflexivity|]); lia.
Qed.

Lemma skip_spaces_sign c t :
  c = "+"%char \/ c = "-"%char -> skip_spaces (String c t) = String c t.
Proof. intros [-> | ->]; destruct t as [|c2 [|c3 t3]]; reflexivity. Qed.

Lemma read_digits_string ds rest a :
  Forall (fun d => d < 10)%nat ds -> no_digit_first rest ->
  read_digits (digits_string ds ++ rest) (Some a) =
  Some (fold_left (fun a d => a * 10 + Z.of_nat d) ds a).
Proof.
  intros Hds Hr; revert a; induction Hds as [|d ds Hd Hds IH]; intros a;
    cbn [digits_string String.append fold_left].
  - destruct rest as [|c t]; [reflexivity|]; cbn [no_digit_first] in Hr;
      cbn [read_digits]; rewrite Hr; reflexivity.
  - cbn [read_digits]; rewrite (digit_of_char d Hd); apply IH.
Qed.

Lemma read_digits_value ds rest :
  ds <> [] -> Forall (fun d => d < 10)%nat ds -> no_digit_first rest ->
  read_digits (digits_string ds ++ rest) None = Some (digits_value ds).
Proof.
  intros Hne Hds Hr; destruct ds as [|d ds]; [contradiction|].
  inversion Hds as [|? ? Hd Hds']; subst.
  cbn [digits_string String.append read_digits]; rewrite (digit_of_char d Hd).
  apply (read_digits_string ds rest _ Hds' Hr).
Qed.

Lemma digits_value_nonneg ds : 0 <= digits_value ds.
Proof.
  unfold digits_value.
  assert (H : forall a, 0 <= a -> 0 <= fold_left (fun a d => a * 10 + Z.of_nat d) ds a).
  { induction ds as [|d ds IH]; intros a Ha; simpl; [exact Ha | apply IH; lia]. }
  apply H; lia.
Qed.

Lemma round_double_small z : Z.abs z < 2 ^ 53 -> round_double z = z.
Proof.
  intros H; unfold round_double; destruct (Z.ltb (Z.abs z) (2 ^ 53)) eqn:E; [reflexivity|].
  apply Z.ltb_ge in E; lia.
Qed.

(** C9 (amended).  When the value of [--stale] has no leading decimal
    integer ([parseInt] gives [NaN]; a bare [-s] is such a value), the
    warning is the first message the run prints and the stale step runs
    with 120 days.  When it has one, no warning is printed at all and the
    stale step runs with the number read: [parseInt] skips leading JS white
    space, takes an optional sign and the longest run of decimal digits and
    ignores the rest, so ['12abc'] reads as 12 (below [2^53] the number is
    exact). *)
Theorem C9_invalid_stale_warns_default :
  (forall base remote v dry e s,
     parseInt10 v = None ->
     let (res, s') := program (mkArgs base remote (Some v) dry) e s in
     (exists l, out s' = (out s ++ WarnInvalidStale v :: l)%list) /\
     match res with
     | Some rep => localCut rep = Some (staleCut (clock e (ticks s)) 120)
     | None => True
     end) /\
  (forall base remote v dry e s n,
     parseInt10 v = Some n ->
     let (res, s') := program (mkArgs base remote (Some v) dry) e s in
     (exists l, out s' = (out s ++ l)%list /\ forall w, ~ In (WarnInvalidStale w) l) /\
     match res with
     | Some rep => localCut rep = Some (staleCut (clock e (ticks s)) n)
     | None => True
     end) /\
  (forall (cps : list Z) (sign : string) (ds : list nat) (rest : string),
     Forall (fun cp => In cp js_white_space) cps ->
     In sign [""; "+"; "-"] ->
     ds <> [] -> Forall (fun d => d < 10)%nat ds -> digits_value ds < 2 ^ 53 ->
     no_digit_first rest ->
     parseInt10 (js_spaces cps ++ sign ++ digits_string ds ++ rest) =
     Some (if String.eqb sign "-" then - digits_value ds else digits_value ds)).
Proof.
  split; [|split].
  - intros base remote v dry e s Hv.
    assert (Hp : parseStaleDays (Some v) = (true, 120%Z)) by (simpl; rewrite Hv; reflexivity).
    unfold program; cbn [a_stale]; rewrite Hp; unfold bind, emit; simpl.
    match goal with
    | |- context [main ?a ?d e ?s1] =>
        destruct (out_grows_main a d e s1) as [l Hl];
        destruct (main a d e s1) as [[rep|] s'] eqn:Em
    end; simpl in Hl.
    + split.
      * exists l; rewrite Hl, <- app_assoc; reflexivity.
      * apply main_shape in Em as [_ [Hc _]]; cbn in Hc; destruct Hc as [-> _]; reflexivity.
    + split; [|exact I].
      exists (l ++ [Fatal])%list; simpl; rewrite Hl, <- !app_assoc; reflexivity.
  - intros base remote v dry e s n Hv.
    assert (Hp : parseStaleDays (Some v) = (false, n)) by (simpl; rewrite Hv; reflexivity).
    unfold program; cbn [a_stale]; rewrite Hp; unfold bind, ret; simpl.
    destruct (out_nowarn_main (mkArgs base remote (Some v) dry) n e s) as [l [Hl Hw]].
    destruct (main _ n e s) as [[rep|] s'] eqn:Em; simpl in Hl.
    + split.
      * exists l; split; [exact Hl | intros w; apply no_warning_In, Hw].
      * apply main_shape in Em as [_ [Hc _]]; cbn in Hc; destruct Hc as [-> _]; reflexivity.
    + split; [|exact I].
      exists (l ++ [Fatal])%list; simpl; rewrite Hl, <- !app_assoc; split; [reflexivity|].
      intros w; apply no_warning_In; rewrite forallb_app, Hw; reflexivity.
  - intros cps sign ds rest Hws Hsign Hne Hds Hlt Hr.
    pose proof (digits_value_nonneg ds) as Hnn.
    pose proof (read_digits_value ds rest Hne Hds Hr) as Hread.
    destruct ds as [|d ds]; [contradiction|].
    inversion Hds as [|? ? Hd _]; subst.
    unfold parseInt10; rewrite skip_spaces_js_spaces by exact Hws.
    destruct Hsign as [<-|[<-|[<-|[]]]]; cbn [String.append String.eqb].
    + cbn [digits_string String.append]; rewrite skip_spaces_digit by exact Hd.
      cbn [digits_string String.append] in Hread.
      replace (match String (digit_char d) (digits_string ds ++ rest) with
               | String "-"%char r => option_map Z.opp (read_digits r None)
               | String "+"%char r => read_digits r None
               | s' => read_digits s' None
               end) with (read_digits (String (digit_char d) (digits_string ds ++ rest)) None)
        by (do 10 (destruct d as [|d]; [reflexivity|]); lia).
      rewrite Hread; cbn [option_map]; rewrite round_double_small by lia; reflexivity.
    + rewrite skip_spaces_sign by auto; rewrite Hread; cbn [option_map].
      rewrite round_double_small by lia; reflexivity.
    + rewrite skip_spaces_sign by auto; rewrite Hread; cbn [option_map].
      rewrite round_double_small by lia; reflexivity.
Qed.

(** Witness of C9: the bare flag, whose value is [true], warns; ['12abc']
    does not; and a value with a no-break space, a minus sign and trailing
    letters reads as its number. *)
Lemma C9_witness :
  parseInt10 "true" = None /\
  (let (res, s') := program (mkArgs "main" false (Some "true") true) sample_env sample_state in
   (exists l, out s' = (out sample_state ++ WarnInvalidStale "true" :: l)%list) /\
   match res with
   | Some rep => localCut rep = Some (staleCut (clock sample_env (ticks sample_state)) 120)
   | None => True
   end) /\
  (let (res, s') := program (mkArgs "main" false (Some "12abc") true) sample_env sample_state in
   (exists l, out s' = (out sample_state ++ l)%list /\ forall w, ~ In (WarnInvalidStale w) l) /\
   match res with
   | Some rep => localCut rep = Some (staleCut (clock sample_env (ticks sample_state)) 12)
   | None => True
   end) /\
  parseInt10 (js_spaces [160; 32] ++ "-" ++ digits_string [1; 2]%nat ++ "abc") = Some (-12).
Proof.
  split; [reflexivity|]; split; [|split].
  - exact (proj1 C9_invalid_stale_warns_default "main" false "true" true sample_env
             sample_state eq_refl).
  - exact (proj1 (proj2 C9_invalid_stale_warns_default) "main" false "12abc" true sample_env
             sample_state 12 eq_refl).
  - apply (proj2 (proj2 C9_invalid_stale_warns_default) [160; 32] "-" [1; 2]%nat "abc").
    + repeat constructor; simpl; tauto.
    + simpl; tauto.
    + discriminate.
    + repeat constructor; lia.
    + reflexivity.
    + reflexivity.
Defined.

(** C9 counterexample: [--stale 12abc] is not a number, yet [parseInt]
    reads its prefix: no warning, and the stale step uses 12 days. *)
Lemma C9_counterexample :
  let (res, s') := program (mkArgs "main" false (Some "12abc") true) sample_env sample_state in
  (forall v, ~ In (WarnInvalidStale v) (out s')) /\
  match res with
  | Some rep => localCut rep = Some (staleCut (clock sample_env 0) 12)
  | None => False
  end.
Proof.
  vm_compute; split; [intros v H; repeat (destruct H as [H|H]; [discriminate|]); exact H | reflexivity].
Qed.


(** C7 counterexample: with [--stale 1 --remote] the local and the remote
    cut-offs differ, one clock tick apart. *)
Lemma C7_counterexample :
  match fst (program (mkArgs "main" true (Some "1") true) sample_env sample_state) with
  | Some rep => localCut rep <> remoteCut rep
  | None => False
  end.
Proof. vm_compute; discriminate. Qed.

(** ** Deletion batches *)

Lemma delete_batch_run mk bs : forall d f e s,
  let (res, s') := delete_batch mk bs d f e s in
  exists d' f', res = Some (d', f') /\ (d' + f' = d + f + length bs)%nat /\
                journal s' = (journal s ++ map mk bs)%list.
Proof.
  induction bs as [|b bs IH]; intros d f e s; simpl.
  - exists d, f; rewrite app_nil_r, Nat.add_0_r; repeat split; reflexivity.
  - unfold bind, catch, runCommand, ret at 1 2.
    destruct (exec_cmd (mk b) (repo s)) as [r'|]; simpl;
    match goal with
    | |- context [delete_batch mk bs ?d1 ?f1 e ?s1] =>
        specialize (IH d1 f1 e s1); destruct (delete_batch mk bs d1 f1 e s1) as [res s']
    end; destruct IH as [d' [f' [Hr [Hc Hj]]]]; exists d', f';
    rewrite Hj; simpl; rewrite <- app_assoc; repeat split; auto; lia.
Qed.

(** C8.  A deletion batch attempts every selected branch in order, never
    fails as a whole, and its two counters add up to the batch size.  Each
    attempt is independent: when git refuses the deletion of the next
    branch, the batch records the command, counts one more failure and goes
    on with the rest from the unchanged repository; when git accepts it,
    the batch counts one more deletion and goes on from the changed
    repository.  In particular when deleting [X] fails and deleting [Y]
    succeeds, the outcome is one deleted and one failed, with [Y]'s
    deletion applied to the repository. *)
Theorem C8_batch_independent :
  (forall mk bs e s,
     let (res, s') := delete_batch mk bs 0 0 e s in
     exists d f, res = Some (d, f) /\ (d + f = length bs)%nat /\
                 journal s' = (journal s ++ map mk bs)%list) /\
  (forall mk b bs d f e s,
     exec_cmd (mk b) (repo s) = None ->
     delete_batch mk (b :: bs) d f e s =
     delete_batch mk bs d (S f) e
       (mkState (repo s) (ticks s) (prompts s) (journal s ++ [mk b]) (out s))) /\
  (forall mk b bs d f e s r',
     exec_cmd (mk b) (repo s) = Some r' ->
     delete_batch mk (b :: bs) d f e s =
     delete_batch mk bs (S d) f e
       (mkState r' (ticks s) (prompts s) (journal s ++ [mk b]) (out s))) /\
  (forall mk X Y e s,
     exec_cmd (mk X) (repo s) = None ->
     exec_cmd (mk Y) (repo s) <> None ->
     let (res, s') := delete_batch mk [X; Y] 0 0 e s in
     res = Some (1, 1)%nat /\ exec_cmd (mk Y) (repo s) = Some (repo s')).
Proof.
  split; [|split; [|split]].
  - intros mk bs e s; generalize (delete_batch_run mk bs 0 0 e s).
    destruct (delete_batch mk bs 0 0 e s) as [res s'].
    intros [d [f [Hr [Hc Hj]]]]; exists d, f; repeat split; auto.
  - intros mk b bs d f e s H; simpl; unfold bind, catch, runCommand, ret; simpl.
    rewrite H; reflexivity.
  - intros mk b bs d f e s r' H; simpl; unfold bind, catch, runCommand, ret; simpl.
    rewrite H; reflexivity.
  - intros mk X Y e s HX HY; simpl; unfold bind, catch, runCommand, ret; simpl.
    rewrite HX; simpl.
    destruct (exec_cmd (mk Y) (repo s)) as [r'|]; [split; reflexivity | contradiction].
Qed.

(** Witness of C8: in the sample history a missing branch cannot be
    deleted and [feature/b] can; the batch [nope; feature/b] goes on after
    the failure and ends with one deletion and one failure. *)
Lemma C8_witness :
  delete_batch BranchDelete ["nope"; "feature/b"] 0%nat 0%nat sample_env sample_state =
  delete_batch BranchDelete ["feature/b"] 0%nat 1%nat sample_env
    (mkState sample_repo 0%nat 0%nat [BranchDelete "nope"] []) /\
  delete_batch BranchDelete ["feature/b"] 0%nat 1%nat sample_env
    (mkState sample_repo 0%nat 0%nat [BranchDelete "nope"] []) =
  delete_batch BranchDelete [] 1%nat 1%nat sample_env
    (mkState (with_heads sample_repo (remove_key "feature/b" (heads sample_repo))) 0%nat 0%nat
       [BranchDelete "nope"; BranchDelete "feature/b"] []) /\
  (let (res, s') :=
     delete_batch BranchDelete ["nope"; "feature/b"] 0%nat 0%nat sample_env sample_state in
   res = Some (1, 1)%nat /\
   exec_cmd (BranchDelete "feature/b") (repo sample_state) = Some (repo s')).
Proof.
  split; [|split].
  - exact (proj1 (proj2 C8_batch_independent) BranchDelete "nope" ["feature/b"] 0%nat 0%nat
             sample_env sample_state eq_refl).
  - exact (proj1 (proj2 (proj2 C8_batch_independent)) BranchDelete "feature/b" [] 0%nat 1%nat
             sample_env (mkState sample_repo 0%nat 0%nat [BranchDelete "nope"] [])
             (with_heads sample_repo (remove_key "feature/b" (heads sample_repo))) eq_refl).
  - exact (proj2 (proj2 (proj2 C8_batch_independent)) BranchDelete "nope" "feature/b"
             sample_env sample_state eq_refl ltac:(discriminate)).
Defined.

(** ** The checked-out branch in the local stale step *)

Lemma classify_local_stale_base r base merged cut :
  ~ In base (classify_local_stale r base merged cut).
Proof.
  intros Hin; unfold classify_local_stale in Hin.
  rewrite local_stale_loop_scan, stale_scan_In in Hin by tauto.
  destruct Hin as [[]|[x [_ [Hk [Hb _]]]]]; exact (Hb Hk).
Qed.

Lemma classify_remote_stale_base r base merged cut :
  ~ In base (classify_remote_stale r base merged cut).
Proof.
  intros Hin; unfold classify_remote_stale in Hin.
  rewrite remote_stale_loop_scan, stale_scan_In in Hin by tauto.
  destruct Hin as [[]|[x [_ [Hk [Hb _]]]]]; exact (Hb Hk).
Qed.

Lemma exec_fetch_head r r' : exec_cmd FetchPrune r = Some r' -> head r' = head r.
Proof.
  cbn [exec_cmd]; destruct (origin_reachable r); [|discriminate].
  intros H; injection H as <-; reflexivity.
Qed.

(** C3 (amended).  In every completed run the base branch is in none of the
    four candidate sets, and the branch checked out when the run starts is
    never a local merged candidate.  The local stale step excludes only the
    base: the checked-out branch can be a local stale candidate (see the
    counterexample). *)
Theorem C3_base_and_checked_out_excluded :
  forall argv e s rep s',
  program argv e s = (Some rep, s') ->
  ~ In (a_base argv) (localMergedToDelete rep) /\
  ~ In (a_base argv) (localStaleToDelete rep) /\
  ~ In (a_base argv) (remoteMergedToDelete rep) /\
  ~ In (a_base argv) (remoteStaleToDelete rep) /\
  (forall c, head (repo s) = Some c -> ~ In c (localMergedToDelete rep)).
Proof.
  intros argv e s rep s' Hp.
  apply program_Some_repo in Hp as [s1 [Hm [_ Hr1]]].
  pose proof Hm as Hm'; apply main_fetched_repo in Hm' as [r1 [Hf [Hlm _]]].
  apply main_shape in Hm as [_ [Hl [Hr _]]].
  split; [|split; [|split; [|split]]].
  - rewrite Hlm; intros Hin; apply classify_local_merged_In in Hin as [_ [h [_ [_ [Hb _]]]]].
    exact (Hb eq_refl).
  - destruct (stale_given argv).
    + destruct Hl as [_ [r2 ->]]; apply classify_local_stale_base.
    + destruct Hl as [-> _]; intros [].
  - destruct (a_remote argv).
    + destruct Hr as [[r3 ->] _]; intros Hin.
      apply classify_remote_merged_In in Hin as [_ [h [_ [_ Hb]]]]; exact (Hb eq_refl).
    + destruct Hr as [-> _]; intros [].
  - destruct (a_remote argv).
    + destruct Hr as [_ Hr]; destruct (stale_given argv).
      * destruct Hr as [_ [r4 ->]]; apply classify_remote_stale_base.
      * destruct Hr as [-> _]; intros [].
    + destruct Hr as [_ [-> _]]; intros [].
  - intros c Hc; rewrite Hlm; intros Hin.
    apply classify_local_merged_In in Hin as [_ [h [_ [_ [_ Hcur]]]]].
    apply Hcur; unfold currentBranchOf.
    rewrite (exec_fetch_head _ _ Hf), Hr1, Hc; reflexivity.
Qed.

(** Witness of C3: with [feature/b] checked out and [--stale 1], [main] is
    not a local stale candidate and [feature/b] is not a local merged
    one. *)
Lemma C3_witness :
  match program (mkArgs "main" false (Some "1") true) sample_env
          (mkState sample_repo_on_b 0 0 [] []) with
  | (Some rep, _) =>
      ~ In "main" (localStaleToDelete rep) /\ ~ In "feature/b" (localMergedToDelete rep)
  | (None, _) => False
  end.
Proof.
  destruct (program _ sample_env _) as [[rep|] s'] eqn:Ep; [|vm_compute in Ep; discriminate].
  destruct (C3_base_and_checked_out_excluded _ _ _ _ _ Ep) as [_ [H2 [_ [_ H5]]]].
  split; [exact H2 | apply H5; reflexivity].
Defined.

(** C3 counterexample.  With [feature/b] checked out and [--stale 1], the
    local stale step lists [feature/b] as a candidate, and a run that is
    not a dry run attempts [git branch -D feature/b]. *)
Lemma C3_counterexample :
  head sample_repo_on_b = Some "feature/b" /\
  match fst (program (mkArgs "main" false (Some "1") true) sample_env
               (mkState sample_repo_on_b 0 0 [] [])) with
  | Some rep => In "feature/b" (localStaleToDelete rep)
  | None => False
  end /\
  In (BranchForceDelete "feature/b")
     (journal (snd (program (mkArgs "main" false (Some "1") false) sample_env
                      (mkState sample_repo_on_b 0 0 [] [])))).
Proof.
  split; [reflexivity|]; vm_compute; split; [left; reflexivity|].
  repeat (try (left; reflexivity); right).
Qed.

(** ** Octopus merges *)

(** C10 (amended).  The merged set holds exactly the second parents of the
    merge commits on the base's first-parent mainline; a branch whose tip is
    not the second parent of any of them, such as a tip that is only a third
    or later parent of an octopus merge, is not a merged candidate. *)
Theorem C10_second_parent_only :
  (forall r base remote h,
     In h (getDirectlyMergedCommitHashes r base remote) <->
     exists bt, resolve r (if remote then (remoteName ++ "/" ++ base)%string else base) = Some bt /\
       exists M, In M (first_parent_chain (parents r) (depth r) bt) /\
                 nth_error (parents r M) 1 = Some h) /\
  (forall r base remote B t,
     map_get B (getBranchTipMap r remote) = Some t ->
     (forall bt, resolve r (if remote then (remoteName ++ "/" ++ base)%string else base) = Some bt ->
        forall M, In M (first_parent_chain (parents r) (depth r) bt) ->
                  nth_error (parents r M) 1 <> Some t) ->
     ~ In B (if remote then classify_remote_merged r base else classify_local_merged r base)).
Proof.
  split; [exact directly_merged_In|].
  intros r base remote B t HB Hn Hin.
  assert (Ht : In t (getDirectlyMergedCommitHashes r base remote)).
  { destruct remote.
    - apply classify_remote_merged_In in Hin as [_ [h [Hg [Hh _]]]].
      rewrite HB in Hg; injection Hg as ->; exact Hh.
    - apply classify_local_merged_In in Hin as [_ [h [Hg [Hh _]]]].
      rewrite HB in Hg; injection Hg as ->; exact Hh. }
  apply directly_merged_In in Ht as [bt [Hbt [M [HM HM1]]]].
  exact (Hn bt Hbt M HM HM1).
Qed.

(** Witness of C10: [t] is the third parent of the octopus [m1] and nothing
    else on the mainline; [feature/t] is not a merged candidate. *)
Lemma C10_witness :
  nth_error (parents octo_repo "m1") 2 = Some "t" /\
  ~ In "feature/t" (classify_local_merged octo_repo "main").
Proof.
  split; [reflexivity|].
  apply (proj2 C10_second_parent_only octo_repo "main" false "feature/t" "t");
    [reflexivity|].
  intros bt Hbt M HM; vm_compute in Hbt; injection Hbt as <-.
  vm_compute in HM; destruct HM as [<-|[<-|[]]]; discriminate.
Defined.

(** C10 counterexample: [t] is the third parent of the octopus [m1] on the
    mainline, and [feature/t] is a merged candidate, because [t] is also the
    second parent of the later merge [m2]. *)
Lemma C10_counterexample :
  In "m1" (first_parent_chain (parents octo_repo_remerged) (depth octo_repo_remerged) "m2") /\
  nth_error (parents octo_repo_remerged "m1") 2 = Some "t" /\
  In "feature/t" (classify_local_merged octo_repo_remerged "main").
Proof. vm_compute; split; [right; left; reflexivity|split; [reflexivity|]]; tauto. Qed.

(** * Further properties of the code *)

(** ** The tip map *)

Lemma tip_lines_step r remote acc :
  fold_left (tip_line remote) (git_branch_tips r remote) acc =
  fold_left tip_step (tip_listing r remote) acc.
Proof.
  unfold git_branch_tips, tip_listing; destruct remote.
  - unfold remote_tips; revert acc; induction (remote_ref_lines r) as [|[[p n] h] l IH];
      intros acc; cbn [map fold_left]; [reflexivity|].
    rewrite <- IH; reflexivity.
  - revert acc; induction (heads r) as [|[k h] l IH]; intros acc; simpl; [reflexivity|].
    rewrite <- IH; reflexivity.
Qed.

Lemma insert_ref_In x y l : In x (insert_ref y l) <-> y = x \/ In x l.
Proof.
  induction l as [|z l IH]; simpl; [tauto|].
  destruct (String.ltb _ _); simpl; [rewrite IH|]; tauto.
Qed.

Lemma sort_refs_In x l : In x (fold_right insert_ref [] l) <-> In x l.
Proof.
  induction l as [|y l IH]; simpl; [tauto|]; rewrite insert_ref_In, IH; tauto.
Qed.

Lemma remote_tip_key_app k : remote_tip_key (remoteName ++ "/" ++ k) = k.
Proof.
  unfold remote_tip_key.
  replace (String.prefix (remoteName ++ "/") (remoteName ++ "/" ++ k)) with true
    by (symmetry; exact (prefix_app "origin/" k)).
  apply remote_key_app.
Qed.

(** The entries of the remote listing, by origin. *)
Lemma remote_tips_In r B h : In (B, h) (remote_tips r) <-> remote_tip_source r B h.
Proof.
  unfold remote_tips, remote_tip_source, remote_ref_lines; rewrite in_map_iff; split.
  - intros [[[p n] h'] [Heq Hin]]; cbn [fst snd] in Heq; injection Heq as <- <-.
    rewrite sort_refs_In in Hin; apply in_app_iff in Hin as [Hin|Hin];
      [|apply in_app_iff in Hin as [Hin|Hin]].
    + apply in_map_iff in Hin as [[k h0] [Heq Hk]]; cbn [fst snd] in Heq.
      injection Heq as <- <- <-; left.
      pose proof (remote_tip_key_app k) as E; cbn [remoteName String.append] in E.
      rewrite E; exact Hk.
    + apply in_map_iff in Hin as [[k h0] [Heq Hk]]; cbn [fst snd] in Heq.
      injection Heq as <- <- <-; right; left; exists k; auto.
    + right; right; destruct (origin_head r) as [t|]; [|destruct Hin].
      destruct (map_get t (tracking r)) as [h0|] eqn:Ht; [|destruct Hin].
      destruct Hin as [Heq|[]]; injection Heq as <- <- <-.
      split; [reflexivity|]; exists t; auto.
  - intros [Hk|[[k [Hk Hb]]|[-> [t [Ht Hg]]]]].
    + exists ((remoteName ++ "/" ++ B)%string, (remoteName ++ "/" ++ B)%string, h).
      cbn [fst snd]; rewrite (remote_tip_key_app B); split; [reflexivity|].
      rewrite sort_refs_In; apply in_app_iff; left.
      apply (in_map (fun kv => let n := (remoteName ++ "/" ++ fst kv)%string in (n, n, snd kv))
               _ (B, h) Hk).
    + exists (k, k, h); cbn [fst snd]; rewrite Hb; split; [reflexivity|].
      rewrite sort_refs_In; apply in_app_iff; right; apply in_app_iff; left.
      apply (in_map (fun kv => (fst kv, fst kv, snd kv)) _ (k, h) Hk).
    + exists ((remoteName ++ "/HEAD")%string, remoteName, h); split; [reflexivity|].
      rewrite sort_refs_In; apply in_app_iff; right; apply in_app_iff; right.
      rewrite Ht, Hg; left; reflexivity.
Qed.

Lemma tip_fold_get B l acc :
  NoDup (map fst l) ->
  map_get B (fold_left tip_step l acc) =
  if tip_name_ok B then match map_get B l with Some h => Some h | None => map_get B acc end
  else map_get B acc.
Proof.
  revert acc; induction l as [|[k h] l IH]; intros acc Hnd; simpl.
  - destruct (tip_name_ok B); reflexivity.
  - inversion Hnd as [|? ? Hnin Hnd']; subst.
    rewrite (IH _ Hnd'); unfold tip_step; cbn [fst snd].
    destruct (String.eqb B k) eqn:E.
    + apply String.eqb_eq in E; subst k.
      assert (Hn : map_get B l = None).
      { destruct (map_get B l) as [h'|] eqn:E'; [|reflexivity].
        exfalso; apply Hnin, (in_map fst _ (B, h')), map_get_In, E'. }
      rewrite Hn; destruct (tip_name_ok B); [rewrite map_get_set, String.eqb_refl|]; reflexivity.
    + destruct (tip_name_ok k); [rewrite map_get_set, E|]; reflexivity.
Qed.

Lemma tip_fold_keys x l acc :
  In x (map fst (fold_left tip_step l acc)) -> In x (map fst acc) \/ In x (map fst l).
Proof.
  revert acc; induction l as [|[k h] l IH]; intros acc; simpl; [auto|].
  intros H; destruct (IH _ H) as [H1|H1]; [|auto].
  unfold tip_step in H1; cbn [fst snd] in H1.
  destruct (tip_name_ok k); [|auto].
  destruct (In_map_set _ _ _ _ H1); auto.
Qed.

(** Every name in the tip map is a name of the listing it was built
    from. *)
Lemma tipmap_keys r remote B h :
  map_get B (getBranchTipMap r remote) = Some h ->
  In B (map fst (tip_listing r remote)).
Proof.
  intros H; apply map_get_In, (in_map fst) in H; cbn [fst] in H.
  unfold getBranchTipMap in H; rewrite tip_lines_step in H.
  destruct (tip_fold_keys _ _ _ H) as [[]|H']; exact H'.
Qed.

Lemma In_map_set_pair {V : Type} kv k (v : V) m :
  In kv (map_set k v m) -> kv = (k, v) \/ In kv m.
Proof.
  induction m as [|[k0 v0] m IH]; simpl; [intros [H|[]]; auto|].
  destruct (String.eqb k k0); simpl; [intros [H|H]; auto|].
  intros [H|H]; [auto|]; destruct (IH H); auto.
Qed.

Lemma tip_fold_pairs kv l acc :
  In kv (fold_left tip_step l acc) -> In kv acc \/ In kv l.
Proof.
  revert acc; induction l as [|[k v] l IH]; intros acc H; simpl in *; [auto|].
  destruct (IH _ H) as [H1|H1]; [|auto].
  unfold tip_step in H1; cbn [fst snd] in H1.
  destruct (tip_name_ok k); [|auto].
  destruct (In_map_set_pair _ _ _ _ H1); auto.
Qed.

(** An entry of the tip map is an entry of the listing it was built from. *)
Lemma tipmap_pair r remote B h :
  map_get B (getBranchTipMap r remote) = Some h ->
  In (B, h) (tip_listing r remote).
Proof.
  intros H; apply map_get_In in H.
  unfold getBranchTipMap in H; rewrite tip_lines_step in H.
  destruct (tip_fold_pairs _ _ _ H) as [[]|H']; exact H'.
Qed.

Lemma tip_fold_name B h l acc :
  map_get B (fold_left tip_step l acc) = Some h ->
  map_get B acc = Some h \/ tip_name_ok B = true.
Proof.
  revert acc; induction l as [|[k v] l IH]; intros acc H; simpl in *; [auto|].
  destruct (IH _ H) as [H1|H1]; [|auto].
  unfold tip_step in H1; cbn [fst snd] in H1.
  destruct (tip_name_ok k) eqn:Ek; [|auto].
  rewrite map_get_set in H1; destruct (String.eqb B k) eqn:E; [|auto].
  apply String.eqb_eq in E; subst k; auto.
Qed.

Lemma tipmap_name_ok r remote B h :
  map_get B (getBranchTipMap r remote) = Some h -> tip_name_ok B = true.
Proof.
  unfold getBranchTipMap; rewrite tip_lines_step; intros H.
  destruct (tip_fold_name _ _ _ _ H) as [H'|H']; [discriminate | exact H'].
Qed.

Lemma tipmap_lookup r remote B :
  NoDup (map fst (tip_listing r remote)) ->
  map_get B (getBranchTipMap r remote) =
  if tip_name_ok B then map_get B (tip_listing r remote) else None.
Proof.
  intros Hnd; unfold getBranchTipMap; rewrite tip_lines_step.
  rewrite (tip_fold_get _ _ _ Hnd); simpl.
  destruct (tip_name_ok B); [destruct (map_get B _); reflexivity | reflexivity].
Qed.

(** X1.  [getBranchTipMap] maps each listed name to its tip, except that an
    empty name or a name containing [->] is never in the map.  Locally,
    when no name repeats, a name's entry is its tip in [refs/heads].
    Remotely the listing is [git branch -r]: origin's branches (under
    their short name), the other remotes' branches (under
    [<remote>/<name>], not stripped) and the symbolic ref [origin/HEAD]
    (under [origin], with the tip of its target); when no key repeats, a
    name's entry is its tip in that listing. *)
Theorem X1_tip_map_lookup :
  (forall (r : Repo) (B : string),
   NoDup (map fst (heads r)) ->
   map_get B (getBranchTipMap r false) =
   if tip_name_ok B then map_get B (heads r) else None) /\
  (forall (r : Repo) (B : string),
   NoDup (map fst (remote_tips r)) ->
   map_get B (getBranchTipMap r true) =
   if tip_name_ok B then map_get B (remote_tips r) else None) /\
  (forall (r : Repo) (B : string) (h : hash),
   In (B, h) (remote_tips r) <-> remote_tip_source r B h) /\
  (forall (r : Repo) (B : string) (h : hash),
   map_get B (getBranchTipMap r true) = Some h ->
   tip_name_ok B = true /\ remote_tip_source r B h).
Proof.
  split; [|split; [|split]].
  - intros r B; exact (tipmap_lookup r false B).
  - intros r B; exact (tipmap_lookup r true B).
  - exact remote_tips_In.
  - intros r B h Hg; split.
    + exact (tipmap_name_ok _ _ _ _ Hg).
    + apply remote_tips_In, (tipmap_pair _ true _ _ Hg).
Qed.

(** Witness of X1: in the sample history with a second remote [upstream]
    and [origin/HEAD] (target [main]), [upstream/feature/a] and [origin]
    are keys of the remote tip map; locally [feature/b] maps to [b1]. *)
Lemma X1_witness :
  map_get "feature/b" (getBranchTipMap fork_repo false) = Some "b1" /\
  map_get "upstream/feature/a" (getBranchTipMap fork_repo true) = Some "a1" /\
  map_get "origin" (getBranchTipMap fork_repo true) = Some "m1" /\
  remote_tip_source fork_repo "upstream/feature/a" "a1" /\
  remote_tip_source fork_repo "origin" "m1".
Proof.
  assert (Hl : NoDup (map fst (heads fork_repo))).
  { vm_compute; repeat constructor; simpl; intuition discriminate. }
  assert (Hr : NoDup (map fst (remote_tips fork_repo))).
  { vm_compute; repeat constructor; simpl; intuition discriminate. }
  assert (Hu : map_get "upstream/feature/a" (getBranchTipMap fork_repo true) = Some "a1").
  { rewrite (proj1 (proj2 X1_tip_map_lookup) fork_repo _ Hr); reflexivity. }
  assert (Ho : map_get "origin" (getBranchTipMap fork_repo true) = Some "m1").
  { rewrite (proj1 (proj2 X1_tip_map_lookup) fork_repo _ Hr); reflexivity. }
  split; [rewrite (proj1 X1_tip_map_lookup fork_repo _ Hl); reflexivity|].
  split; [exact Hu|]; split; [exact Ho|]; split.
  - exact (proj2 (proj2 (proj2 (proj2 X1_tip_map_lookup)) _ _ _ Hu)).
  - exact (proj2 (proj2 (proj2 (proj2 X1_tip_map_lookup)) _ _ _ Ho)).
Defined.

(** ** The merged hashes *)

Lemma NoDup_set_add x s : NoDup s -> NoDup (set_add x s).
Proof.
  intros H; unfold set_add; destruct (set_has x s) eqn:E; [exact H|].
  apply set_has_false in E; apply NoDup_app; [exact H | repeat constructor; intros [] |].
  intros y Hy [<-|[]]; contradiction.
Qed.

Lemma NoDup_merged_line lines s : NoDup s -> NoDup (fold_left merged_line lines s).
Proof.
  revert s; induction lines as [|l ls IH]; intros s H; simpl; [exact H|].
  apply IH; unfold merged_line; destruct l as [|? [|? ?]]; auto using NoDup_set_add.
Qed.

(** X2.  [getDirectlyMergedCommitHashes] lists each hash once; it is empty
    when the base ([origin/<base>] for the remote scope) does not resolve;
    and every hash it lists is an ancestor of the base tip. *)
Theorem X2_merged_hashes_ancestors :
  forall (r : Repo) (base : string) (remote : bool),
  NoDup (getDirectlyMergedCommitHashes r base remote) /\
  (resolve r (if remote then (remoteName ++ "/" ++ base)%string else base) = None ->
   getDirectlyMergedCommitHashes r base remote = []) /\
  (forall h, In h (getDirectlyMergedCommitHashes r base remote) ->
   exists bt, resolve r (if remote then (remoteName ++ "/" ++ base)%string else base) = Some bt /\
              reachable (parents r) bt h).
Proof.
  intros r base remote; split; [|split].
  - unfold getDirectlyMergedCommitHashes; destruct (git_log_merges _ _);
      [apply NoDup_merged_line; constructor | constructor].
  - intros Hn; unfold getDirectlyMergedCommitHashes, git_log_merges; rewrite Hn; reflexivity.
  - apply directly_merged_reachable.
Qed.

(** Witness of X2: [a1] is merged into [main] on the sample history and is
    an ancestor of its tip [m1]. *)
Lemma X2_witness :
  exists bt, resolve sample_repo "main" = Some bt /\ reachable (parents sample_repo) bt "a1".
Proof.
  apply (proj2 (proj2 (X2_merged_hashes_ancestors sample_repo "main" false)) "a1").
  vm_compute; left; reflexivity.
Defined.

(** ** Merged candidates *)

Lemma NoDup_merged_filter hs ex m acc :
  NoDup acc -> NoDup (fold_left (merged_filter hs ex) m acc).
Proof.
  revert acc; induction m as [|kv m IH]; intros acc H; simpl; [exact H|].
  apply IH; unfold merged_filter; destruct (_ && _); auto using NoDup_set_add.
Qed.

Lemma show_ref_head_resolve r base :
  show_ref_head r base = true -> exists bt, map_get base (heads r) = Some bt.
Proof.
  unfold show_ref_head, key_in; intros H; apply existsb_exists in H as [[k v] [Hin Heq]].
  apply String.eqb_eq in Heq; cbn [fst] in Heq; subst k.
  induction (heads r) as [|[k0 v0] l IH]; [destruct Hin|]; simpl.
  destruct (String.eqb base k0) eqn:E; [eauto|].
  destruct Hin as [[= -> ->]|Hin]; [rewrite String.eqb_refl in E; discriminate | auto].
Qed.

(** X3.  The local merged candidate set lists each branch once; it is
    empty when [refs/heads/<base>] does not exist; and each candidate is a
    local branch, other than the base and the checked-out branch, whose tip
    is an ancestor of the base tip. *)
Theorem X3_local_merged_sound :
  forall (r : Repo) (base : string),
  NoDup (classify_local_merged r base) /\
  (show_ref_head r base = false -> classify_local_merged r base = []) /\
  (forall B, In B (classify_local_merged r base) ->
     B <> base /\ head r <> Some B /\
     exists bt h, map_get base (heads r) = Some bt /\
                  In (B, h) (heads r) /\ reachable (parents r) bt h).
Proof.
  intros r base; split; [|split].
  - unfold classify_local_merged; destruct (show_ref_head r base);
      [apply NoDup_merged_filter; constructor | constructor].
  - intros Hn; unfold classify_local_merged; rewrite Hn; reflexivity.
  - intros B Hin; apply classify_local_merged_In in Hin as [Hs [h [Hg [Hh [Hb Hc]]]]].
    destruct (show_ref_head_resolve _ _ Hs) as [bt Hbt].
    apply directly_merged_reachable in Hh as [bt' [Hbt' Hr]].
    unfold resolve in Hbt'; rewrite Hbt in Hbt'; injection Hbt' as <-.
    split; [exact Hb|split].
    + unfold currentBranchOf in Hc; destruct (head r); congruence.
    + exists bt, h; repeat split; auto; exact (tipmap_pair _ false _ _ Hg).
Qed.

(** Witness of X3: [feature/a] is a local merged candidate of the sample. *)
Lemma X3_witness :
  "feature/a" <> "main" /\ head sample_repo <> Some "feature/a" /\
  exists bt h, map_get "main" (heads sample_repo) = Some bt /\
               In ("feature/a", h) (heads sample_repo) /\ reachable (parents sample_repo) bt h.
Proof.
  apply (proj2 (proj2 (X3_local_merged_sound sample_repo "main")) "feature/a").
  vm_compute; left; reflexivity.
Defined.

(** X4.  The remote merged candidate set lists each name once; it is
    empty when [refs/remotes/origin/<base>] does not exist; and each
    candidate, other than the base, is a key of the remote listing (see
    X1: an origin branch by its short name, another remote's branch by
    [<remote>/<name>], or [origin] for [origin/HEAD]) whose tip is an
    ancestor of the tip of [origin/<base>]. *)
Theorem X4_remote_merged_sound :
  forall (r : Repo) (base : string),
  NoDup (classify_remote_merged r base) /\
  (show_ref_remote r base = false -> classify_remote_merged r base = []) /\
  (forall B, In B (classify_remote_merged r base) ->
     B <> base /\
     exists bt h, resolve r (remoteName ++ "/" ++ base) = Some bt /\
                  remote_tip_source r B h /\ reachable (parents r) bt h).
Proof.
  intros r base; split; [|split].
  - unfold classify_remote_merged; destruct (show_ref_remote r base);
      [apply NoDup_merged_filter; constructor | constructor].
  - intros Hn; unfold classify_remote_merged; rewrite Hn; reflexivity.
  - intros B Hin; apply classify_remote_merged_In in Hin as [Hs [h [Hg [Hh Hb]]]].
    apply directly_merged_reachable in Hh as [bt [Hbt Hr]].
    split; [exact Hb|]; exists bt, h; repeat split; auto.
    apply remote_tips_In, (tipmap_pair _ true _ _ Hg).
Qed.

(** Witness of X4: [upstream/feature/a], a branch of the other remote, is a
    remote merged candidate of the sample with two remotes, to be pushed
    for deletion on [origin]. *)
Lemma X4_witness :
  "upstream/feature/a" <> "main" /\
  exists bt h, resolve fork_repo (remoteName ++ "/" ++ "main") = Some bt /\
               remote_tip_source fork_repo "upstream/feature/a" h /\
               reachable (parents fork_repo) bt h.
Proof.
  apply (proj2 (proj2 (X4_remote_merged_sound fork_repo "main")) "upstream/feature/a").
  vm_compute; tauto.
Defined.

(** X5.  With a detached [HEAD] the current branch is [''], which is never
    a branch name: no branch is kept out of the local merged set as the
    checked-out one, only the base is. *)
Theorem X5_detached_head_excludes_only_base :
  forall (r : Repo) (base B : string),
  head r = None ->
  (In B (classify_local_merged r base) <->
   show_ref_head r base = true /\
   exists h, map_get B (getBranchTipMap r false) = Some h /\
             In h (getDirectlyMergedCommitHashes r base false) /\ B <> base).
Proof.
  intros r base B Hd; rewrite classify_local_merged_In; unfold currentBranchOf; rewrite Hd.
  split.
  - intros [Hs [h [Hg [Hh [Hb _]]]]]; eauto 6.
  - intros [Hs [h [Hg [Hh Hb]]]]; split; [exact Hs|]; exists h; repeat split; auto.
    exact (tipmap_get_nonempty _ _ _ _ Hg).
Qed.

(** Witness of X5: the sample history with a detached [HEAD]. *)
Lemma X5_witness :
  head (with_head_detached sample_repo) = None /\
  In "feature/a" (classify_local_merged (with_head_detached sample_repo) "main").
Proof.
  split; [reflexivity|].
  apply (proj2 (X5_detached_head_excludes_only_base (with_head_detached sample_repo)
                  "main" "feature/a" eq_refl)).
  split; [reflexivity|]; exists "a1"; split; [reflexivity|]; split; [|discriminate].
  vm_compute; left; reflexivity.
Defined.

(** ** Stale candidates *)

Lemma NoDup_stale_scan key tsOf base merged cut xs st hd :
  NoDup st -> NoDup (fst (stale_scan key tsOf base merged cut xs st hd)).
Proof.
  revert st hd; induction xs as [|x xs IH]; intros st hd H; simpl; [exact H|].
  destruct (_ || _); [auto|].
  destruct (0 <? tsOf x)%Z; [destruct (_ && _)|]; auto using NoDup_set_add.
Qed.

(** X6.  The local stale candidate set lists each branch once, and each
    candidate is a local branch other than the base, not a merged
    candidate, whose last-commit timestamp could be read (positive) and is
    at or before the cut-off. *)
Theorem X6_local_stale_sound :
  forall (r : Repo) (base : string) (merged : list string) (cut : Z),
  NoDup (classify_local_stale r base merged cut) /\
  (forall b, In b (classify_local_stale r base merged cut) ->
     In b (map fst (heads r)) /\ b <> base /\ ~ In b merged /\
     (0 < getBranchCommitTimestamp r b)%Z /\
     (getBranchCommitTimestamp r b * 1000 <= cut)%Z).
Proof.
  intros r base merged cut; split.
  - unfold classify_local_stale; rewrite local_stale_loop_scan;
      apply NoDup_stale_scan; constructor.
  - intros b Hb; unfold classify_local_stale in Hb.
    rewrite local_stale_loop_scan, stale_scan_In in Hb by tauto.
    destruct Hb as [[]|[x [Hx [<- [Hnb [Hnm [Hts Hst]]]]]]].
    apply Z.leb_le in Hst; repeat split; auto.
Qed.

(** Witness of X6: [feature/b] is a stale candidate of the sample with a
    1-day threshold 30 days after the epoch. *)
Lemma X6_witness :
  In "feature/b" (map fst (heads sample_repo)) /\ "feature/b" <> "main" /\
  ~ In "feature/b" ["feature/a"] /\
  (0 < getBranchCommitTimestamp sample_repo "feature/b")%Z /\
  (getBranchCommitTimestamp sample_repo "feature/b" * 1000 <= staleCut 2592000000 1)%Z.
Proof.
  apply (proj2 (X6_local_stale_sound sample_repo "main" ["feature/a"] (staleCut 2592000000 1))).
  vm_compute; left; reflexivity.
Defined.

(** X7.  The remote stale candidate set lists each branch once, and each
    candidate is the short name [y] of a remote-tracking branch
    [origin/y], other than the base, not a remote merged candidate, whose
    last-commit timestamp could be read and is at or before the cut-off. *)
Theorem X7_remote_stale_sound :
  forall (r : Repo) (base : string) (merged : list string) (cut : Z),
  NoDup (classify_remote_stale r base merged cut) /\
  (forall y, In y (classify_remote_stale r base merged cut) ->
     In y (map fst (tracking r)) /\ y <> base /\ ~ In y merged /\
     (0 < getBranchCommitTimestamp r (remoteName ++ "/" ++ y))%Z /\
     (getBranchCommitTimestamp r (remoteName ++ "/" ++ y) * 1000 <= cut)%Z).
Proof.
  intros r base merged cut; split.
  - unfold classify_remote_stale; rewrite remote_stale_loop_scan;
      apply NoDup_stale_scan; constructor.
  - intros y Hy; unfold classify_remote_stale in Hy.
    rewrite remote_stale_loop_scan, stale_scan_In in Hy by tauto.
    destruct Hy as [[]|[x [Hx [Hk [Hnb [Hnm [Hts Hst]]]]]]].
    apply filter_In in Hx as [Hx _]; unfold git_branch_r in Hx.
    apply in_map_iff in Hx as [[k h] [<- Hkh]]; cbn [fst] in *.
    rewrite remote_key_app in Hk, Hnb, Hnm; subst k.
    apply Z.leb_le in Hst; repeat split; auto.
    apply in_map_iff; exists (y, h); split; [reflexivity | exact Hkh].
Qed.

(** Witness of X7: with [feature/a] not merged, [origin/feature/a]
    (committed at 50 s) is a remote stale candidate. *)
Lemma X7_witness :
  In "feature/a" (map fst (tracking sample_repo)) /\ "feature/a" <> "main" /\
  ~ In "feature/a" [] /\
  (0 < getBranchCommitTimestamp sample_repo (remoteName ++ "/" ++ "feature/a"))%Z /\
  (getBranchCommitTimestamp sample_repo (remoteName ++ "/" ++ "feature/a") * 1000
     <= staleCut 2592000000 1)%Z.
Proof.
  apply (proj2 (X7_remote_stale_sound sample_repo "main" [] (staleCut 2592000000 1))).
  vm_compute; left; reflexivity.
Defined.

(** X8.  In the remote stale listing filter the test
    [branch !== 'refs/remotes/origin/<base>'] never excludes anything: a
    name that passes [startsWith('origin/')] cannot equal a name starting
    with [refs/]; the base is kept out only by the short-name test of the
    loop. *)
Theorem X8_remote_ref_test_inert :
  forall base branch : string,
  remote_branch_filter base branch =
  negb (String.eqb branch "") && String.prefix (remoteName ++ "/") branch.
Proof.
  intros base branch; unfold remote_branch_filter.
  destruct (String.prefix (remoteName ++ "/") branch) eqn:Hp;
    [|rewrite !andb_false_r; reflexivity].
  apply prefix_split in Hp; rewrite Hp; reflexivity.
Qed.

(** ** Deletion steps and the commands a run attempts *)

Lemma delete_batch_prompts mk bs d f : preserves prompts (delete_batch mk bs d f).
Proof.
  revert d f; induction bs as [|b bs IH]; intros d f; simpl; [apply preserves_ret|].
  apply preserves_bind.
  - apply preserves_catch; [apply preserves_bind; [apply runCommand_prompts | intros; apply preserves_ret]|].
    apply preserves_ret.
  - intros [|]; apply IH.
Qed.

Lemma deletion_step_run dry cands mk e s :
  let (res, s') := deletion_step dry cands mk e s in
  let sel := if dry then [] else match cands with
                                 | [] => []
                                 | _ :: _ => select e (prompts s) cands
                                 end in
  exists d f, res = Some (d, f) /\ (d + f = length sel)%nat /\
    journal s' = (journal s ++ map mk sel)%list /\
    prompts s' = (prompts s + if dry then 0 else match cands with
                                                  | [] => 0
                                                  | _ :: _ => 1
                                                  end)%nat.
Proof.
  unfold deletion_step; destruct dry.
  - exists 0%nat, 0%nat; simpl; rewrite app_nil_r, Nat.add_0_r; repeat split.
  - destruct cands as [|c cs].
    + exists 0%nat, 0%nat; simpl; rewrite app_nil_r, Nat.add_0_r; repeat split.
    + unfold bind, selectBranchesToDelete; cbn beta iota.
      destruct (select e (prompts s) (c :: cs)) as [|b bs] eqn:Es.
      * exists 0%nat, 0%nat; simpl; rewrite app_nil_r; repeat split; lia.
      * match goal with
        | |- context [delete_batch mk (b :: bs) 0 0 e ?s1] =>
            pose proof (delete_batch_run mk (b :: bs) 0 0 e s1) as Hr;
            pose proof (delete_batch_prompts mk (b :: bs) 0 0 e s1) as Hp;
            destruct (delete_batch mk (b :: bs) 0 0 e s1) as [res s']
        end.
        destruct Hr as [d [f [-> [Hc Hj]]]]; simpl in Hp, Hc, Hj |- *.
        exists d, f; repeat split; [exact Hc | exact Hj | lia].
Qed.

(** X10.  One deletion step ([selectBranchesToDelete] and the deletion
    loop of a category) never fails.  In a dry run it does nothing; for an
    empty candidate set it shows no prompt and runs no command; otherwise it
    shows one prompt and runs the category's delete command on exactly the
    branches the operator kept, in order, the two counters adding up to
    their number. *)
Theorem X10_deletion_step :
  forall (dry : bool) (cands : list string) (mk : string -> Cmd) (e : Env) (s : State),
  let (res, s') := deletion_step dry cands mk e s in
  let sel := if dry then [] else match cands with
                                 | [] => []
                                 | _ :: _ => select e (prompts s) cands
                                 end in
  exists d f, res = Some (d, f) /\ (d + f = length sel)%nat /\
    journal s' = (journal s ++ map mk sel)%list /\
    prompts s' = (prompts s + if dry then 0 else match cands with
                                                  | [] => 0
                                                  | _ :: _ => 1
                                                  end)%nat.
Proof. exact deletion_step_run. Qed.

Lemma deletion_step_sel dry cands mk e s d f s' :
  (forall n bs, incl (select e n bs) bs) ->
  deletion_step dry cands mk e s = (Some (d, f), s') ->
  exists sel, incl sel cands /\ journal s' = (journal s ++ map mk sel)%list /\
              (d + f = length sel)%nat.
Proof.
  intros Hsel H; generalize (deletion_step_run dry cands mk e s); rewrite H.
  intros [d' [f' [[= <- <-] [Hc [Hj _]]]]].
  eexists; split; [|split; [exact Hj | exact Hc]].
  destruct dry; [intros x []|]; destruct cands; [intros x []|apply Hsel].
Qed.

Lemma emit_journal m : preserves journal (emit m).
Proof. intros e s; reflexivity. Qed.

Lemma get_repo_journal : preserves journal get_repo.
Proof. intros e s; reflexivity. Qed.

Lemma date_now_journal : preserves journal date_now.
Proof. intros e s; reflexivity. Qed.

Lemma remote_steps_journal argv d e s rm rs cut td tf s' :
  (forall n bs, incl (select e n bs) bs) ->
  remote_steps argv d e s = (Some (rm, rs, cut, td, tf), s') ->
  exists sel3 sel4,
    journal s' = (journal s ++ map PushDelete sel3 ++ map PushDelete sel4 ++
                  (if negb (a_dry_run argv) && (Nat.ltb 0 td || Nat.ltb 0 tf)
                   then [FetchPrune] else []))%list /\
    incl sel3 rm /\ incl sel4 rs /\ (td + tf = length sel3 + length sel4)%nat.
Proof.
  intros Hsel H; unfold remote_steps in H.
  bstep H g s1 Hg; unfold get_repo in Hg; injection Hg as <- <-.
  bstep H st s2 Hs.
  assert (Hj2 : journal s2 = journal s).
  { destruct (stale_given argv && a_remote argv); simpl in Hs.
    - bstep Hs n s3 Hn; unfold date_now in Hn; injection Hn as <- <-.
      bstep Hs g s4 Hg; unfold get_repo in Hg; injection Hg as <- <-.
      injection Hs as <- <-; reflexivity.
    - injection Hs as <- <-; reflexivity. }
  destruct st as [rs0 cut0].
  bstep H c1 s3 Hd1; destruct c1 as [rmd rmf].
  apply (deletion_step_sel _ _ _ _ _ _ _ _ Hsel) in Hd1 as [sel3 [Hi3 [Hj3 Hc3]]].
  bstep H c2 s4 Hd2; destruct c2 as [rsd rsf].
  apply (deletion_step_sel _ _ _ _ _ _ _ _ Hsel) in Hd2 as [sel4 [Hi4 [Hj4 Hc4]]].
  bstep H u s5 Hp.
  injection H as <- <- <- <- <- <-.
  exists sel3, sel4; split; [|repeat split; auto; lia].
  revert Hp; destruct (negb (a_dry_run argv) && _); intros Hp.
  - unfold runCommand in Hp; destruct (exec_cmd FetchPrune (repo s4)); [|discriminate].
    injection Hp as _ <-; simpl; rewrite Hj4, Hj3, Hj2, <- !app_assoc; reflexivity.
  - injection Hp as _ <-; rewrite Hj4, Hj3, Hj2, <- !app_assoc, app_nil_r; reflexivity.
Qed.

Lemma main_journal argv d e s rep s' :
  (forall n bs, incl (select e n bs) bs) ->
  main argv d e s = (Some rep, s') ->
  exists sel1 sel2 sel3 sel4,
    journal s' = (journal s ++ [FetchPrune] ++ map BranchDelete sel1 ++
                  map BranchForceDelete sel2 ++ map PushDelete sel3 ++ map PushDelete sel4 ++
                  (if a_remote argv && negb (a_dry_run argv) &&
                      (Nat.ltb 0 (totalRemoteDeleted rep) || Nat.ltb 0 (totalRemoteFailed rep))
                   then [FetchPrune] else []))%list /\
    incl sel1 (localMergedToDelete rep) /\ incl sel2 (localStaleToDelete rep) /\
    incl sel3 (remoteMergedToDelete rep) /\ incl sel4 (remoteStaleToDelete rep) /\
    (totalLocalDeleted rep + totalLocalFailed rep = length sel1 + length sel2)%nat /\
    (totalRemoteDeleted rep + totalRemoteFailed rep = length sel3 + length sel4)%nat.
Proof.
  intros Hsel H; unfold main in H.
  bstep H u s1 Hf.
  assert (Hj1 : journal s1 = (journal s ++ [FetchPrune])%list).
  { unfold runCommand in Hf; destruct (exec_cmd FetchPrune (repo s)); [|discriminate].
    injection Hf as _ <-; reflexivity. }
  bstep H g s2 Hg; unfold get_repo in Hg; injection Hg as <- <-.
  bstep H st s3 Hs.
  assert (Hj3 : journal s3 = journal s1).
  { destruct (stale_given argv); simpl in Hs.
    - bstep Hs n s4 Hn; unfold date_now in Hn; injection Hn as <- <-.
      bstep Hs g s5 Hg; unfold get_repo in Hg; injection Hg as <- <-.
      injection Hs as <- <-; reflexivity.
    - injection Hs as <- <-; reflexivity. }
  destruct st as [ls lcut].
  bstep H c1 s4 Hd1; destruct c1 as [lmd lmf].
  apply (deletion_step_sel _ _ _ _ _ _ _ _ Hsel) in Hd1 as [sel1 [Hi1 [Hj4 Hc1]]].
  bstep H c2 s5 Hd2; destruct c2 as [lsd lsf].
  apply (deletion_step_sel _ _ _ _ _ _ _ _ Hsel) in Hd2 as [sel2 [Hi2 [Hj5 Hc2]]].
  bstep H rr s6 Hr; destruct rr as [[[[rm rs] rcut] rd] rf].
  assert (Hrem : exists sel3 sel4,
            journal s6 = (journal s5 ++ map PushDelete sel3 ++ map PushDelete sel4 ++
                          (if a_remote argv && negb (a_dry_run argv) &&
                              (Nat.ltb 0 rd || Nat.ltb 0 rf)
                           then [FetchPrune] else []))%list /\
            incl sel3 rm /\ incl sel4 rs /\ (rd + rf = length sel3 + length sel4)%nat).
  { destruct (a_remote argv).
    - apply (remote_steps_journal _ _ _ _ _ _ _ _ _ _ Hsel) in Hr; exact Hr.
    - injection Hr as <- <- <- <- <- <-.
      exists [], []; simpl; rewrite app_nil_r; repeat split; intros x []. }
  destruct Hrem as [sel3 [sel4 [Hj6 [Hi3 [Hi4 Hc34]]]]].
  bstep H u1 s7 He1.
  assert (Hj7 : journal s7 = journal s6)
    by (destruct (a_dry_run argv); injection He1 as _ <-; reflexivity).
  bstep H u2 s8 He2; injection He2 as _ <-.
  bstep H u3 s9 He3.
  assert (Hj9 : journal s9 = journal s7)
    by (destruct (a_remote argv); injection He3 as _ <-; reflexivity).
  injection H as <- <-; cbn.
  exists sel1, sel2, sel3, sel4; repeat split; auto; try lia.
  rewrite Hj9, Hj7, Hj6, Hj5, Hj4, Hj3, Hj1, <- !app_assoc; reflexivity.
Qed.

(** ** The whole run: commands, summary, fatal errors *)

Lemma program_main argv e s rep s' :
  program argv e s = (Some rep, s') ->
  exists s1, main argv (snd (parseStaleDays (a_stale argv))) e s1 = (Some rep, s') /\
             journal s1 = journal s /\ exists l, out s1 = (out s ++ l)%list.
Proof.
  unfold program; destruct (parseStaleDays (a_stale argv)) as [warn days]; simpl.
  destruct warn; unfold bind, ret, emit; simpl.
  - destruct (main argv days e _) as [[r|] s2] eqn:Es; intros H; [|discriminate].
    injection H as -> ->; eexists; split; [exact Es|]; split; [reflexivity|]; cbn.
    eexists; reflexivity.
  - destruct (main argv days e s) as [[r|] s2] eqn:Es; intros H; [|discriminate].
    injection H as -> ->; exists s; split; [exact Es|]; split; [reflexivity|].
    exists []; rewrite app_nil_r; reflexivity.
Qed.

(** X11.  In a completed run, when the operator can only keep offered
    branches, the program runs [git fetch origin --prune], then
    [git branch -d] on kept local merged candidates, [git branch -D] on kept
    local stale candidates, [git push origin --delete] on kept remote merged
    and then remote stale candidates, and a second prune exactly when
    [--remote] is on, it is not a dry run and a remote deletion was
    attempted; nothing else.  The counters count the attempted deletions. *)
Theorem X11_run_commands :
  forall (argv : Args) (e : Env) (s : State) (rep : Report) (s' : State),
  (forall n bs, incl (select e n bs) bs) ->
  program argv e s = (Some rep, s') ->
  exists sel1 sel2 sel3 sel4,
    journal s' = (journal s ++ [FetchPrune] ++ map BranchDelete sel1 ++
                  map BranchForceDelete sel2 ++ map PushDelete sel3 ++ map PushDelete sel4 ++
                  (if a_remote argv && negb (a_dry_run argv) &&
                      (Nat.ltb 0 (totalRemoteDeleted rep) || Nat.ltb 0 (totalRemoteFailed rep))
                   then [FetchPrune] else []))%list /\
    incl sel1 (localMergedToDelete rep) /\ incl sel2 (localStaleToDelete rep) /\
    incl sel3 (remoteMergedToDelete rep) /\ incl sel4 (remoteStaleToDelete rep) /\
    (totalLocalDeleted rep + totalLocalFailed rep = length sel1 + length sel2)%nat /\
    (totalRemoteDeleted rep + totalRemoteFailed rep = length sel3 + length sel4)%nat.
Proof.
  intros argv e s rep s' Hsel Hp.
  apply program_main in Hp as [s1 [Hm [Hj _]]].
  apply (main_journal _ _ _ _ _ _ Hsel) in Hm; rewrite Hj in Hm; exact Hm.
Qed.

Lemma sample_env_select n bs : incl (select sample_env n bs) bs.
Proof. apply incl_refl. Qed.

(** Witness of X11: a full run on the sample history with [--remote] and
    [--stale 1]. *)
Lemma X11_witness :
  exists rep s',
  program (mkArgs "main" true (Some "1") false) sample_env sample_state = (Some rep, s') /\
  exists sel1 sel2 sel3 sel4,
    journal s' = (journal sample_state ++ [FetchPrune] ++ map BranchDelete sel1 ++
                  map BranchForceDelete sel2 ++ map PushDelete sel3 ++ map PushDelete sel4 ++
                  (if true && negb false &&
                      (Nat.ltb 0 (totalRemoteDeleted rep) || Nat.ltb 0 (totalRemoteFailed rep))
                   then [FetchPrune] else []))%list /\
    incl sel1 (localMergedToDelete rep) /\ incl sel2 (localStaleToDelete rep) /\
    incl sel3 (remoteMergedToDelete rep) /\ incl sel4 (remoteStaleToDelete rep) /\
    (totalLocalDeleted rep + totalLocalFailed rep = length sel1 + length sel2)%nat /\
    (totalRemoteDeleted rep + totalRemoteFailed rep = length sel3 + length sel4)%nat.
Proof.
  destruct (program (mkArgs "main" true (Some "1") false) sample_env sample_state)
    as [[rep|] s'] eqn:E; [|vm_compute in E; discriminate].
  exists rep, s'; split; [reflexivity|].
  exact (X11_run_commands (mkArgs "main" true (Some "1") false) sample_env sample_state
           rep s' sample_env_select E).
Defined.

Lemma out_grows_Some {A : Type} (m : M A) e s a s' :
  out_grows m -> m e s = (Some a, s') -> exists l, out s' = (out s ++ l)%list.
Proof. intros Hg Hm; destruct (Hg e s) as [l Hl]; rewrite Hm in Hl; eauto. Qed.

Ltac grow_step H a s1 Hm l Hl :=
  bstep H a s1 Hm;
  match type of Hm with
  | ?m _ _ = _ =>
      let Hg := fresh "Hg" in
      assert (Hg : out_grows m) by grows;
      destruct (out_grows_Some _ _ _ _ _ Hg Hm) as [l Hl]; clear Hg
  end.

Lemma main_out argv d e s rep s' :
  main argv d e s = (Some rep, s') ->
  exists l, out s' = (out s ++ l ++ (if a_dry_run argv then [DryRunComplete] else []) ++
    [LocalSummary (totalLocalDeleted rep) (totalLocalFailed rep);
     if a_remote argv then RemoteSummary (totalRemoteDeleted rep) (totalRemoteFailed rep)
     else RemoteDisabled])%list.
Proof.
  intros H; unfold main in H.
  grow_step H u s1 Hf l1 Hl1.
  grow_step H g s2 Hg l2 Hl2.
  grow_step H st s3 Hs l3 Hl3; destruct st as [ls lcut].
  grow_step H c1 s4 Hd1 l4 Hl4; destruct c1 as [lmd lmf].
  grow_step H c2 s5 Hd2 l5 Hl5; destruct c2 as [lsd lsf].
  grow_step H rr s6 Hr l6 Hl6; destruct rr as [[[[rm rs] rcut] rd] rf].
  bstep H u1 s7 He1.
  bstep H u2 s8 He2.
  bstep H u3 s9 He3.
  injection H as <- <-; cbn.
  exists (l1 ++ l2 ++ l3 ++ l4 ++ l5 ++ l6)%list.
  assert (H7 : out s7 = (out s6 ++ if a_dry_run argv then [DryRunComplete] else [])%list)
    by (destruct (a_dry_run argv); injection He1 as _ <-; [reflexivity | rewrite app_nil_r; reflexivity]).
  injection He2 as _ <-.
  assert (H9 : out s9 = (out s7 ++ [LocalSummary (lmd + lsd) (lmf + lsf);
                                    if a_remote argv then RemoteSummary rd rf else RemoteDisabled])%list)
    by (destruct (a_remote argv); injection He3 as _ <-; simpl; rewrite <- app_assoc; reflexivity).
  rewrite H9, H7, Hl6, Hl5, Hl4, Hl3, Hl2, Hl1, <- !app_assoc; reflexivity.
Qed.

(** X12.  A completed run ends its output with the summary: the dry-run
    notice when [--dry-run] is on, then the local counters, then the remote
    counters, or the notice that remote cleanup is disabled when [--remote]
    is off; the counters are those of the run's report. *)
Theorem X12_summary_lines :
  forall (argv : Args) (e : Env) (s : State) (rep : Report) (s' : State),
  program argv e s = (Some rep, s') ->
  exists l, out s' = (out s ++ l ++ (if a_dry_run argv then [DryRunComplete] else []) ++
    [LocalSummary (totalLocalDeleted rep) (totalLocalFailed rep);
     if a_remote argv then RemoteSummary (totalRemoteDeleted rep) (totalRemoteFailed rep)
     else RemoteDisabled])%list.
Proof.
  intros argv e s rep s' Hp.
  apply program_main in Hp as [s1 [Hm [_ [l1 Hl1]]]].
  apply main_out in Hm as [l2 Hl2].
  exists (l1 ++ l2)%list; rewrite Hl2, Hl1, <- !app_assoc; reflexivity.
Qed.

(** Witness of X12: a dry run on the sample history. *)
Lemma X12_witness :
  exists rep s',
  program (mkArgs "main" false None true) sample_env sample_state = (Some rep, s') /\
  exists l, out s' = (out sample_state ++ l ++ [DryRunComplete] ++
    [LocalSummary (totalLocalDeleted rep) (totalLocalFailed rep); RemoteDisabled])%list.
Proof.
  destruct (program (mkArgs "main" false None true) sample_env sample_state)
    as [[rep|] s'] eqn:E; [|vm_compute in E; discriminate].
  exists rep, s'; split; [reflexivity|].
  exact (X12_summary_lines (mkArgs "main" false None true) sample_env sample_state rep s' E).
Defined.

Lemma main_prune_fails argv d e s :
  origin_reachable (repo s) = false ->
  main argv d e s = (None, mkState (repo s) (ticks s) (prompts s)
                             (journal s ++ [FetchPrune]) (out s)).
Proof.
  intros H; unfold main, bind at 1, runCommand; cbn [exec_cmd]; rewrite H; reflexivity.
Qed.

(** X13.  When origin cannot be reached, the first [git fetch origin
    --prune] fails and the run aborts: no other command, no prompt, no
    clock reading and no change to the repository, and the output ends with
    the fatal error. *)
Theorem X13_initial_prune_failure_aborts :
  forall (argv : Args) (e : Env) (s : State),
  origin_reachable (repo s) = false ->
  let (res, s') := program argv e s in
  res = None /\ journal s' = (journal s ++ [FetchPrune])%list /\ repo s' = repo s /\
  prompts s' = prompts s /\ ticks s' = ticks s /\
  exists l, out s' = (out s ++ l ++ [Fatal])%list.
Proof.
  intros argv e s H; unfold program.
  destruct (parseStaleDays (a_stale argv)) as [warn days].
  destruct warn; unfold bind, ret, emit; cbn beta iota;
    rewrite main_prune_fails by exact H; cbn [repo ticks prompts journal out].
  - repeat split.
    exists [WarnInvalidStale match a_stale argv with Some s => s | None => ""%string end].
    rewrite <- app_assoc; reflexivity.
  - repeat split. exists []; reflexivity.
Qed.

(** Witness of X13: the sample history with origin unreachable. *)
Lemma X13_witness :
  origin_reachable (repo (mkState (with_origin_down sample_repo) 0 0 [] [])) = false /\
  let (res, s') := program (mkArgs "main" true None false) sample_env
                     (mkState (with_origin_down sample_repo) 0 0 [] []) in
  res = None /\ journal s' = ([] ++ [FetchPrune])%list /\
  repo s' = with_origin_down sample_repo /\ prompts s' = 0%nat /\ ticks s' = 0%nat /\
  exists l, out s' = ([] ++ l ++ [Fatal])%list.
Proof.
  split; [reflexivity|].
  exact (X13_initial_prune_failure_aborts (mkArgs "main" true None false) sample_env
           (mkState (with_origin_down sample_repo) 0 0 [] []) eq_refl).
Defined.
